(** * pdf_to_images: page export pipeline

    A shallow embedding of [src/pdf_to_images.py].  Python integers are
    [Z]; optional arguments are [option]; raised exceptions are the
    [Raise] branch of [result].  The file system and the order in which
    the collaborators (PyMuPDF, Pillow, pathlib) are called are explicit
    in the state threaded by the [IO] monad. *)

From Stdlib Require Import ZArith QArith Qround Qabs Lia Ascii String.
From stdpp Require Import base gmap list strings.

Local Open Scope Z_scope.

(** ** Paths, exceptions, results *)

(** A path in its parsed form: the list of its components, outermost
    first.  The empty list is the directory everything is resolved
    against. *)
Abbreviation path := (list string).

Inductive value_error :=
| UnsupportedFormat (fmt : string)
| DpiNotPositive
| QualityOutOfRange
| InvalidRange (start end_ : option Z) (n_pages : Z)
| ImagesDoNotMatch
| BadImageSize
| EmptyName.

Inductive permission_error :=
| EncryptedNoPassword
| IncorrectPassword.

Inductive exn :=
| ValueError (why : value_error)
| FileNotFoundError (p : path)
| PermissionError (why : permission_error)
| FileExistsError (p : path)
| NotADirectoryError (p : path)
| IsADirectoryError (p : path)
| FileDataError (p : path)
| IndexError (i : Z)
| ZeroDivisionError
| FormatError (template : string).

Inductive result (A : Type) :=
| Ok (a : A)
| Raise (e : exn).
Arguments Ok {A} a.
Arguments Raise {A} e.

#[global] Instance result_ret : MRet result := fun A a => Ok a.
#[global] Instance result_bind : MBind result := fun A B f r =>
  match r with
  | Ok a => f a
  | Raise e => Raise e
  end.

(** ** Range resolver *)

(** Python's truth value of an [Optional[int]]: [None] and [0] are falsy. *)
Definition truthy (o : option Z) : bool :=
  match o with
  | None => false
  | Some v => negb (v =? 0)
  end.

(** The value of an optional integer where the code reads it after the
    truth test (the branch is not taken for [None]). *)
Definition int_of (o : option Z) : Z := default 0 o.

Definition range_first (start : option Z) : Z :=
  if negb (truthy start) then 0 else Z.max 0 (int_of start - 1).

Definition range_last (end_ : option Z) (n_pages : Z) : Z :=
  if negb (truthy end_) then n_pages - 1 else Z.min (n_pages - 1) (int_of end_ - 1).

Definition _validate_range (start end_ : option Z) (n_pages : Z) : result (Z * Z) :=
  let first := range_first start in
  let last := range_last end_ n_pages in
  if first >? last then Raise (ValueError (InvalidRange start end_ n_pages))
  else Ok (first, last).

(** ** Images (the part of Pillow the pipeline consumes) *)

(** Pillow's mode strings ["1"], ["L"], ["P"], ["LA"], ["RGB"], ["RGBA"],
    ["CMYK"]. *)
Inductive Mode := M1 | ML | MP | MLA | MRGB | MRGBA | MCMYK.

#[global] Instance Mode_eq_dec : EqDecision Mode.
Proof. solve_decision. Defined.

Definition has_alpha (m : Mode) : bool :=
  match m with
  | MLA | MRGBA => true
  | _ => false
  end.

Definition bands (m : Mode) : Z :=
  match m with
  | M1 | ML | MP => 1
  | MLA => 2
  | MRGB => 3
  | MRGBA | MCMYK => 4
  end.

(** An image: its header (mode and size) and its raw samples. *)
Record Image := {
  mode : Mode;
  width : Z;
  height : Z;
  samples : list Z
}.

Inductive save_params :=
| SaveJPEG (quality : Z) (optimize progressive : bool)
| SavePNG (optimize : bool)
| SaveWEBP (quality : Z) (method : Z)
| SaveByExtension.

(** The pixel arithmetic and the encoders belong to the codec library;
    the pipeline only relies on which operation is applied to which
    image, so they are operations of an interface. *)
Class Codec := {
  (* samples of [Image.new(mode, size, color)] *)
  px_new : Mode -> Z -> Z -> list Z -> list Z;
  (* samples of [Image.alpha_composite(im1, im2)], both RGBA of one size *)
  px_alpha_composite : list Z -> list Z -> list Z;
  (* samples of [im.convert(mode)] *)
  px_convert : Mode -> Mode -> list Z -> list Z;
  (* samples of [im.resize(size, LANCZOS)] *)
  px_lanczos : Mode -> Z * Z -> Z * Z -> list Z -> list Z;
  (* the bytes [im.save(path, format, **params)] writes *)
  encode : save_params -> Image -> list Z;
  (* [template.format(stem=..., page=...)], [None] when it raises *)
  format_template : string -> string -> Z -> option string
}.

Section Imaging.
Context `{Codec}.

Definition Image_new (m : Mode) (w h : Z) (color : list Z) : Image :=
  {| mode := m; width := w; height := h; samples := px_new m w h color |}.

(** [Image.alpha_composite] refuses images that are not both RGBA or
    that differ in size. *)
Definition alpha_composite (im1 im2 : Image) : result Image :=
  if bool_decide (mode im1 = MRGBA) && bool_decide (mode im2 = MRGBA)
     && (width im1 =? width im2) && (height im1 =? height im2)
  then Ok {| mode := MRGBA; width := width im1; height := height im1;
             samples := px_alpha_composite (samples im1) (samples im2) |}
  else Raise (ValueError ImagesDoNotMatch).

Definition convert (img : Image) (m : Mode) : Image :=
  {| mode := m; width := width img; height := height img;
     samples := px_convert (mode img) m (samples img) |}.

Definition resize (img : Image) (w h : Z) : result Image :=
  if (0 <? w) && (0 <? h)
  then Ok {| mode := mode img; width := w; height := h;
             samples := px_lanczos (mode img) (width img, height img) (w, h) (samples img) |}
  else Raise (ValueError BadImageSize).

(** The size rule of [Image.thumbnail(size)], after Pillow's
    [preserve_aspect_ratio]: with [aspect = width / height], the side
    that is not pinned to the requested box is [number] rounded down or
    up, whichever of the two keeps the ratio closer to [aspect] (the
    first on a tie), and at least 1.  Pillow computes the quotients in
    double precision; here they are exact rationals. *)
Definition round_aspect (number : Q) (key : Z -> Q) : Z :=
  let lo := Qfloor number in
  let hi := Qceiling number in
  Z.max (if Qle_bool (key lo) (key hi) then lo else hi) 1.

Definition preserve_aspect_ratio (img : Image) (x y : Z) : result (option (Z * Z)) :=
  if (x >=? width img) && (y >=? height img) then Ok None
  else if height img =? 0 then Raise ZeroDivisionError
  else
    let aspect := (inject_Z (width img) / inject_Z (height img))%Q in
    if y =? 0 then Raise ZeroDivisionError
    else if Qle_bool aspect (inject_Z x / inject_Z y) then
      let x' := round_aspect (inject_Z y * aspect)
                  (fun n => Qabs (aspect - inject_Z n / inject_Z y)) in
      Ok (Some (x', y))
    else if width img =? 0 then Raise ZeroDivisionError
    else
      let y' := round_aspect (inject_Z x / aspect)
                  (fun n => if n =? 0 then 0%Q
                            else Qabs (aspect - inject_Z x / inject_Z n)) in
      Ok (Some (x, y')).

Definition thumbnail (img : Image) (x y : Z) : result Image :=
  sz ← preserve_aspect_ratio img x y;
  match sz with
  | None => Ok img
  | Some (w', h') =>
      if (w' =? width img) && (h' =? height img) then Ok img
      else resize img w' h'
  end.

(** ** The transform chain *)

Definition white : list Z := [255; 255; 255; 255].

Definition _flatten_to_rgb (img : Image) : result Image :=
  if bool_decide (mode img = MRGBA) then
    let bg := Image_new MRGBA (width img) (height img) white in
    img' ← alpha_composite bg img;
    Ok (convert img' MRGB)
  else if bool_decide (mode img ≠ MRGB) then Ok (convert img MRGB)
  else Ok img.

Definition _maybe_grayscale (img : Image) (grayscale : bool) : Image :=
  if grayscale then convert img ML else img.

Definition _maybe_downscale (img : Image) (max_dim : option Z) : result Image :=
  if truthy max_dim && (Z.max (width img) (height img) >? int_of max_dim)
  then thumbnail img (int_of max_dim) (int_of max_dim)
  else Ok img.

(** Lines 126-129 of [pdf_to_images]: the three transforms in the order
    the loop body applies them. *)
Definition transform (fmt : string) (grayscale : bool) (max_dim : option Z)
    (img : Image) : result Image :=
  img ← (if bool_decide (fmt ∈ ({["jpg"; "webp"]} : gset string))
         then _flatten_to_rgb img else Ok img);
  let img := _maybe_grayscale img grayscale in
  _maybe_downscale img max_dim.

End Imaging.

(** ** Documents (the part of PyMuPDF the pipeline consumes) *)

Record Pixmap := {
  alpha : bool;
  pix_width : Z;
  pix_height : Z;
  pix_samples : list Z
}.

(** A page is what it renders to, given the zoom of the matrix and the
    [alpha] flag of the call. *)
Record Page := { get_pixmap : Q -> bool -> Pixmap }.

Record Document := {
  needs_pass : bool;
  authenticate : string -> bool;
  pages : list Page
}.

(** ** The file system and the log of calls *)

Inductive content :=
| PdfFile (doc : Document)
| Blob (bytes : list Z).

Inductive node :=
| Dir
| File (c : content).

Inductive event :=
| EvMkdir (p : path)
| EvOpen (p : path)
| EvAuthenticate (pw : string)
| EvRange (start end_ : option Z) (n_pages : Z)
| EvRender (i : Z)
| EvSave (p : path)
| EvClose.

Record World := {
  fs : gmap path node;
  trace : list event
}.

(** The empty path is the directory paths are resolved against. *)
Definition lookup_path (m : gmap path node) (p : path) : option node :=
  match p with
  | [] => Some Dir
  | _ => m !! p
  end.

(** ** State and exceptions *)

Definition IO (A : Type) : Type := World -> result A * World.

#[global] Instance IO_ret : MRet IO := fun A a w => (Ok a, w).
#[global] Instance IO_bind : MBind IO := fun A B f m w =>
  match m w with
  | (Ok a, w') => f a w'
  | (Raise e, w') => (Raise e, w')
  end.

Definition raise {A} (e : exn) : IO A := fun w => (Raise e, w).
Definition lift {A} (r : result A) : IO A := fun w => (r, w).
Definition log (e : event) : IO unit := fun w =>
  (Ok tt, {| fs := fs w; trace := trace w ++ [e] |}).

Fixpoint for_each {A} (xs : list A) (body : A -> IO unit) : IO unit :=
  match xs with
  | [] => mret tt
  | x :: rest => body x ;; for_each rest body
  end.

(** ** pathlib *)

Definition is_file (p : path) : IO bool := fun w =>
  (Ok match lookup_path (fs w) p with
      | Some (File _) => true
      | _ => false
      end, w).

Definition path_exists (p : path) : IO bool := fun w =>
  (Ok (bool_decide (is_Some (lookup_path (fs w) p))), w).

Fixpoint rfind_dot (i : nat) (s : string) : option nat :=
  match s with
  | EmptyString => None
  | String c s' =>
      match rfind_dot (S i) s' with
      | Some j => Some j
      | None => if Ascii.eqb c "."%char then Some i else None
      end
  end.

Definition name (p : path) : string := List.last p "".

(** The final component without its last suffix: the name is cut at its
    last dot unless that dot is its first or its last character. *)
Definition stem (p : path) : string :=
  let nm := name p in
  match rfind_dot 0 nm with
  | Some i =>
      if ((0 <? i) && (i <? String.length nm - 1))%nat then substring 0 i nm else nm
  | None => nm
  end.

(* [p.with_suffix("")] *)
Definition with_suffix_empty (p : path) : result path :=
  if String.eqb (name p) "" then Raise (ValueError EmptyName)
  else Ok (removelast p ++ [stem p]).

(** [mkdir(parents=True, exist_ok=True)]: walking down from the top,
    a missing component is created, a directory is entered, a regular
    file in the way is an error. *)
Fixpoint mkdir_from (pre : path) (rest : list string) (m : gmap path node)
    : result (gmap path node) :=
  match rest with
  | [] => Ok m
  | c :: rest' =>
      let p := pre ++ [c] in
      match m !! p with
      | Some Dir => mkdir_from p rest' m
      | Some (File _) =>
          Raise (match rest' with
                 | [] => FileExistsError p
                 | _ => NotADirectoryError (p ++ rest')
                 end)
      | None => mkdir_from p rest' (<[p := Dir]> m)
      end
  end.

Definition mkdir_parents (p : path) : IO unit := fun w =>
  let w := {| fs := fs w; trace := trace w ++ [EvMkdir p] |} in
  match mkdir_from [] p (fs w) with
  | Ok m => (Ok tt, {| fs := m; trace := trace w |})
  | Raise e => (Raise e, w)
  end.

(* [Path(out_dir) if out_dir else pdf_path.with_suffix("")] *)
Definition outdir_of (pdf_path : path) (out_dir : option path) : result path :=
  match out_dir with
  | Some d => Ok d
  | None => with_suffix_empty pdf_path
  end.

Definition _ensure_outdir (pdf_path : path) (out_dir : option path) : IO path :=
  out ← lift (outdir_of pdf_path out_dir);
  mkdir_parents out ;;
  mret out.

(** ** The conversion *)

Definition VALID_FORMATS : gset string := {["jpg"; "jpeg"; "png"; "webp"]}.

(** [str.lower] on the letters A-Z; other characters are left as they
    are, which does not change whether the result is a valid format. *)
Definition lower_char (c : ascii) : ascii :=
  let n := nat_of_ascii c in
  if ((65 <=? n) && (n <=? 90))%nat then ascii_of_nat (n + 32) else c.

Fixpoint lower (s : string) : string :=
  match s with
  | EmptyString => EmptyString
  | String c s' => String (lower_char c) (lower s')
  end.

(** Python's truth value of an [Optional[str]]. *)
Definition truthy_str (o : option string) : bool :=
  match o with
  | None => false
  | Some s => negb (String.eqb s "")
  end.

Section Pipeline.
Context `{Codec}.

Definition fitz_open (p : path) : IO Document := fun w =>
  let w := {| fs := fs w; trace := trace w ++ [EvOpen p] |} in
  match lookup_path (fs w) p with
  | Some (File (PdfFile doc)) => (Ok doc, w)
  | Some _ => (Raise (FileDataError p), w)
  | None => (Raise (FileNotFoundError p), w)
  end.

(** [with fitz.open(p) as doc: body]: the handle is closed on every way
    out of the body. *)
Definition with_open {A} (p : path) (body : Document -> IO A) : IO A := fun w =>
  match fitz_open p w with
  | (Ok doc, w') =>
      let '(r, w'') := body doc w' in
      (r, {| fs := fs w''; trace := trace w'' ++ [EvClose] |})
  | (Raise e, w') => (Raise e, w')
  end.

Definition doc_authenticate (doc : Document) (pw : string) : IO bool :=
  log (EvAuthenticate pw) ;; mret (authenticate doc pw).

Definition doc_len (doc : Document) : Z := Z.of_nat (length (pages doc)).

(* [doc[i]] for the indices the loop produces, which are never negative *)
Definition doc_getitem (doc : Document) (i : Z) : IO Page :=
  match (if 0 <=? i then pages doc !! Z.to_nat i else None) with
  | Some page => mret page
  | None => raise (IndexError i)
  end.

Definition render (page : Page) (i : Z) (zoom : Q) : IO Pixmap :=
  log (EvRender i) ;; mret (get_pixmap page zoom true).

Definition frombytes (m : Mode) (w h : Z) (data : list Z) : Image :=
  {| mode := m; width := w; height := h; samples := data |}.

Definition save (img : Image) (out_file : path) (params : save_params) : IO unit := fun w =>
  let w := {| fs := fs w; trace := trace w ++ [EvSave out_file] |} in
  match lookup_path (fs w) out_file with
  | Some Dir => (Raise (IsADirectoryError out_file), w)
  | _ => (Ok tt, {| fs := <[out_file := File (Blob (encode params img))]> (fs w);
                    trace := trace w |})
  end.

(** The path the page with 0-based index [i] is written to (lines
    131-133); the formatted name is one component below [out_dir], and
    every exception of [str.format] (KeyError, IndexError, ValueError,
    ...) is tagged [FormatError]. *)
Definition out_file_of (pdf_path out_dir : path) (filename_template fmt : string) (i : Z)
    : result path :=
  match format_template filename_template (stem pdf_path) (i + 1) with
  | Some out_base => Ok (out_dir ++ [out_base +:+ "." +:+ fmt])
  | None => Raise (FormatError filename_template)
  end.

(** Lines 138-150: the format and keyword arguments of [img.save]. *)
Definition save_kwargs (fmt : string) (quality : Z) : save_params :=
  if String.eqb fmt "jpg" then SaveJPEG quality true true
  else if String.eqb fmt "png" then SavePNG true
  else if String.eqb fmt "webp" then SaveWEBP quality 6
  else SaveByExtension.

(** The body of the loop over the pages (lines 121-150). *)
Definition export_page (doc : Document) (pdf_path out_dir : path) (zoom : Q)
    (fmt : string) (quality : Z) (overwrite : bool) (filename_template : string)
    (grayscale : bool) (max_dim : option Z) (i : Z) : IO unit :=
  page ← doc_getitem doc i;
  pix ← render page i zoom;
  let m := if alpha pix then MRGBA else MRGB in
  let img := frombytes m (pix_width pix) (pix_height pix) (pix_samples pix) in
  img ← lift (transform fmt grayscale max_dim img);
  out_file ← lift (out_file_of pdf_path out_dir filename_template fmt i);
  there ← path_exists out_file;
  if there && negb overwrite then mret tt
  else save img out_file (save_kwargs fmt quality).

(** Lines 86-88: lower-casing and the alias. *)
Definition normalize_format (fmt : string) : string :=
  let fmt := lower fmt in
  if String.eqb fmt "jpeg" then "jpg" else fmt.

(** Lines 109-150: what runs while the document is open. *)
Definition convert_document (doc : Document) (pdf_path out_dir : path) (zoom : Q)
    (fmt : string) (quality : Z) (start end_ : option Z) (overwrite : bool)
    (filename_template : string) (password : option string) (grayscale : bool)
    (max_dim : option Z) : IO unit :=
  (if needs_pass doc then
     if negb (truthy_str password) then raise (PermissionError EncryptedNoPassword)
     else
       ok ← doc_authenticate doc (default "" password);
       if negb ok then raise (PermissionError IncorrectPassword) else mret tt
   else mret tt) ;;
  log (EvRange start end_ (doc_len doc)) ;;
  '(first, last) ← lift (_validate_range start end_ (doc_len doc));
  for_each (seqZ first (last + 1 - first))
    (export_page doc pdf_path out_dir zoom fmt quality overwrite filename_template
       grayscale max_dim).

(** The arguments are those of the Python function, in its order.  An
    [out_dir] of [None] also stands for the empty string, which the code
    treats alike; [int(dpi)] and [int(quality)] are the identity on
    integers; the progress bar only wraps the iterator and is left out.
    The zoom [dpi / 72.0] is handed to the renderer as the exact
    quotient. *)
Definition pdf_to_images (pdf_path : path) (out_dir : option path) (dpi quality : Z)
    (start end_ : option Z) (fmt : string) (overwrite : bool)
    (filename_template : string) (password : option string) (grayscale : bool)
    (max_dim : option Z) : IO path :=
  let fmt := normalize_format fmt in
  if negb (bool_decide (fmt ∈ VALID_FORMATS)) then raise (ValueError (UnsupportedFormat fmt))
  else if dpi <=? 0 then raise (ValueError DpiNotPositive)
  else if bool_decide (fmt ∈ ({["jpg"; "webp"]} : gset string))
          && negb ((1 <=? quality) && (quality <=? 100))
  then raise (ValueError QualityOutOfRange)
  else
    found ← is_file pdf_path;
    if negb found then raise (FileNotFoundError pdf_path)
    else
      out_dir ← _ensure_outdir pdf_path out_dir;
      let zoom := Qmake dpi 72 in
      with_open pdf_path (fun doc =>
        convert_document doc pdf_path out_dir zoom fmt quality start end_ overwrite
          filename_template password grayscale max_dim) ;;
      mret out_dir.

End Pipeline.

(** ** A small executable codec

    Enough of the codec library to run the pipeline on concrete inputs:
    per-pixel compositing over the backdrop, channel dropping and an
    integer luma, nearest-neighbour resampling in place of Lanczos, a
    tagged dump in place of the encoders, and the default file name
    template. *)
Module Sample.

Fixpoint pixels (fuel : nat) (n : nat) (l : list Z) : list (list Z) :=
  match fuel with
  | O => []
  | S fuel' =>
      match l with
      | [] => []
      | _ => take n l :: pixels fuel' n (drop n l)
      end
  end.

Definition chunk (m : Mode) (l : list Z) : list (list Z) :=
  pixels (length l) (Z.to_nat (bands m)) l.

Definition over (dst src : list Z) : list Z :=
  match dst, src with
  | [dr; dg; db; da], [sr; sg; sb; sa] =>
      [ (sr * sa + dr * (255 - sa)) / 255;
        (sg * sa + dg * (255 - sa)) / 255;
        (sb * sa + db * (255 - sa)) / 255;
        sa + da * (255 - sa) / 255 ]
  | _, _ => dst
  end.

Definition to_rgb (m : Mode) (px : list Z) : list Z :=
  match m, px with
  | MRGB, _ => px
  | MRGBA, [r; g; b; _] => [r; g; b]
  | MCMYK, [c; m'; y; k] => [(255 - c) * (255 - k) / 255; (255 - m') * (255 - k) / 255;
                             (255 - y) * (255 - k) / 255]
  | _, v :: _ => [v; v; v]
  | _, [] => [0; 0; 0]
  end.

Definition recode (from to : Mode) (px : list Z) : list Z :=
  match to_rgb from px with
  | [r; g; b] =>
      let l := (r * 299 + g * 587 + b * 114) / 1000 in
      match to with
      | MRGB => [r; g; b]
      | MRGBA => [r; g; b; 255]
      | MLA => [l; 255]
      | MCMYK => [255 - r; 255 - g; 255 - b; 0]
      | _ => [l]
      end
  | _ => px
  end.

Definition nearest (m : Mode) (from to : Z * Z) (l : list Z) : list Z :=
  let px := chunk m l in
  concat (map (fun k =>
            let x := (k `mod` to.1) * from.1 / to.1 in
            let y := (k / to.1) * from.2 / to.2 in
            default [] (px !! Z.to_nat (y * from.1 + x)))
          (seqZ 0 (to.1 * to.2))).

Definition dump (p : save_params) (img : Image) : list Z :=
  match p with
  | SaveJPEG q _ _ => [74; q]
  | SavePNG _ => [80]
  | SaveWEBP q me => [87; q; me]
  | SaveByExtension => [63]
  end ++ [bands (mode img); width img; height img] ++ samples img.

Definition digit (n : Z) : string :=
  String (ascii_of_nat (48 + Z.to_nat (n `mod` 10))) EmptyString.

Definition page3 (n : Z) : string :=
  digit (n / 100) +:+ digit (n / 10) +:+ digit n.

Definition fill_template (template stem : string) (page : Z) : option string :=
  if String.eqb template "{stem}_p{page:03d}" then Some (stem +:+ "_p" +:+ page3 page)
  else if String.eqb template "{stem}" then Some stem
  else None.

#[local] Instance codec : Codec := {|
  px_new := fun m w h color =>
    concat (replicate (Z.to_nat (w * h)) (take (Z.to_nat (bands m)) color));
  px_alpha_composite := fun a b =>
    concat (zip_with over (chunk MRGBA a) (chunk MRGBA b));
  px_convert := fun from to l => concat (map (recode from to) (chunk from l));
  px_lanczos := nearest;
  encode := dump;
  format_template := fill_template
|}.

(** A two-page document: a 2x1 RGBA page and a 2x1 opaque page. *)
Definition page_a : Page :=
  {| get_pixmap := fun _ _ =>
       {| alpha := true; pix_width := 2; pix_height := 1;
          pix_samples := [255; 0; 0; 255; 0; 0; 255; 0] |} |}.

Definition page_b : Page :=
  {| get_pixmap := fun _ _ =>
       {| alpha := false; pix_width := 2; pix_height := 1;
          pix_samples := [10; 20; 30; 40; 50; 60] |} |}.

Definition plain : Document :=
  {| needs_pass := false; authenticate := fun _ => true; pages := [page_a; page_b] |}.

Definition locked : Document :=
  {| needs_pass := true; authenticate := fun pw => String.eqb pw "s3cret";
     pages := [page_a; page_b] |}.

Definition disk : World :=
  {| fs := {[ ["in"] := Dir;
              ["in"; "doc.pdf"] := File (PdfFile plain);
              ["in"; "locked.pdf"] := File (PdfFile locked) ]};
     trace := [] |}.

Definition rgba_image : Image :=
  {| mode := MRGBA; width := 2; height := 1;
     samples := [255; 0; 0; 255; 0; 0; 255; 0] |}.

Definition wide_image : Image :=
  {| mode := MRGB; width := 4; height := 2; samples := replicate 24 7 |}.

End Sample.

(** ** The range contract in the words of the specification *)

(** First index of the contract: 0 for an absent start, [max(0, start-1)]
    for a present one. *)
Definition stated_first (start : option Z) : Z :=
  match start with
  | None => 0
  | Some s => Z.max 0 (s - 1)
  end.

(** Last index of the contract: [n-1] for an absent end,
    [min(n-1, end-1)] for a present one. *)
Definition stated_last (end_ : option Z) (n_pages : Z) : Z :=
  match end_ with
  | None => n_pages - 1
  | Some e => Z.min (n_pages - 1) (e - 1)
  end.

(** Last index as the code resolves it: an end of 0 counts as absent. *)
Definition resolved_last (end_ : option Z) (n_pages : Z) : Z :=
  match end_ with
  | None | Some 0 => n_pages - 1
  | Some e => Z.min (n_pages - 1) (e - 1)
  end.

Definition range_contract (last_of : option Z -> Z -> Z)
    (start end_ : option Z) (n_pages : Z) : Prop :=
  let first := stated_first start in
  let last := last_of end_ n_pages in
  (first > last <->
     _validate_range start end_ n_pages = Raise (ValueError (InvalidRange start end_ n_pages)))
  /\ (first <= last ->
        _validate_range start end_ n_pages = Ok (first, last)
        /\ 0 <= first <= last /\ last <= n_pages - 1).

(** ** Vocabulary of the statements about whole runs *)

(** The request passes the checks of lines 89-98. *)
Definition request_ok (fmt : string) (dpi quality : Z) : Prop :=
  normalize_format fmt ∈ VALID_FORMATS
  /\ 0 < dpi
  /\ (normalize_format fmt ∈ ({["jpg"; "webp"]} : gset string) -> 1 <= quality <= 100).

Section StatedOutputDirectory.
Context `{Codec}.


End StatedOutputDirectory.

(** The world once the output directory is made and the document is
    about to be read, and the world once the handle is released. *)
Definition opened (w : World) (m : gmap path node) (out pdf_path : path) : World :=
  {| fs := m; trace := trace w ++ [EvMkdir out; EvOpen pdf_path] |}.

Definition closed (w : World) : World :=
  {| fs := fs w; trace := trace w ++ [EvClose] |}.

(** A computation keeps a relation between the file system it starts
    from and the one it leaves, whether it returns or raises. *)
Definition keeps (R : relation (gmap path node)) {A} (c : IO A) : Prop :=
  forall w, R (fs w) (fs (c w).2).

Definition dirs_kept (m m' : gmap path node) : Prop :=
  forall p, lookup_path m p = Some Dir -> lookup_path m' p = Some Dir.

Definition entries_kept (m m' : gmap path node) : Prop :=
  forall p n, m !! p = Some n -> m' !! p = Some n.



(** The two refusals that come between the opening of the document and
    its first page: a password problem and an empty page range. *)
Definition refused_before_pages (e : exn) : Prop :=
  match e with
  | PermissionError _ | ValueError (InvalidRange _ _ _) => True
  | _ => False
  end.

(** ** Vocabulary of the further statements *)

(** Calls made while the document is open. *)
Definition document_event (ev : event) : Prop :=
  match ev with
  | EvAuthenticate _ | EvRange _ _ _ | EvRender _ | EvSave _ => True
  | _ => False
  end.

(** A computation only appends to the log, and what it appends
    satisfies [P], whether it returns or raises. *)
Definition emits (P : event -> Prop) {A} (c : IO A) : Prop :=
  forall w, exists t, trace (c w).2 = trace w ++ t /\ Forall P t.

(** The same document without its encryption. *)
Definition unlocked (doc : Document) : Document :=
  {| needs_pass := false; authenticate := authenticate doc; pages := pages doc |}.

(** The two exception tags no run of the model ends in: an index
    outside the document from [doc[i]], and a refusal of
    [alpha_composite].  (What [str.format] raises is tagged
    [FormatError], whatever its Python class.) *)
Definition unreachable_exn (e : exn) : Prop :=
  match e with
  | IndexError _ | ValueError ImagesDoNotMatch => True
  | _ => False
  end.

(** The page indices rendered, in the order of the log. *)
Definition rendered (t : list event) : list Z :=
  omap (fun ev => match ev with EvRender i => Some i | _ => None end) t.

(** Paths that exist keep existing, and paths that hold an encoded image
    keep holding one. *)
Definition files_stay (m m' : gmap path node) : Prop :=
  forall p, (is_Some (m !! p) -> is_Some (m' !! p))
            /\ (forall b, m !! p = Some (File (Blob b)) ->
                          exists b', m' !! p = Some (File (Blob b'))).

Section Plan.
Context `{Codec}.

(** The part of the loop body that does not depend on the file system:
    the image to save and the path to save it to. *)
Definition page_plan (doc : Document) (pdf_path out_dir : path) (zoom : Q) (fmt : string)
    (filename_template : string) (grayscale : bool) (max_dim : option Z) (i : Z)
    : result (Image * path) :=
  match (if 0 <=? i then pages doc !! Z.to_nat i else None) with
  | None => Raise (IndexError i)
  | Some page =>
      let pix := get_pixmap page zoom true in
      img ← transform fmt grayscale max_dim
               (frombytes (if alpha pix then MRGBA else MRGB) (pix_width pix)
                  (pix_height pix) (pix_samples pix));
      out_file ← out_file_of pdf_path out_dir filename_template fmt i;
      Ok (img, out_file)
  end.

End Plan.

(** * Theorems *)

(** ** Range resolver *)

Lemma range_first_stated start : range_first start = stated_first start.
Proof.
  destruct start as [s|]; [|reflexivity].
  unfold range_first, stated_first, truthy, int_of; simpl.
  destruct (Z.eqb_spec s 0) as [->|Hs]; simpl; [reflexivity|lia].
Qed.

Lemma range_last_resolved end_ n : range_last end_ n = resolved_last end_ n.
Proof.
  destruct end_ as [[|e|e]|]; reflexivity.
Qed.

Lemma validate_range_cases start end_ n :
  let first := stated_first start in
  let last := resolved_last end_ n in
  _validate_range start end_ n =
    if first >? last then Raise (ValueError (InvalidRange start end_ n))
    else Ok (first, last).
Proof.
  unfold _validate_range. rewrite range_first_stated, range_last_resolved. reflexivity.
Qed.

(** C1, as stated, fails: for a 3-page document with no start and
    [end = 0] the contract gives [last = min(2, -1) = -1], hence an error,
    while [_validate_range] returns the whole document. *)
Lemma range_contract_fails_at_end_zero :
  ~ range_contract stated_last None (Some 0) 3.
Proof.
  intros [Herr _]. destruct Herr as [Herr _].
  assert (Hgt : stated_first None > stated_last (Some 0) 3) by (vm_compute; reflexivity).
  specialize (Herr Hgt). vm_compute in Herr. discriminate Herr.
Qed.

(** C1, amended: for every page count [n >= 1] and every optional
    start and end, [_validate_range] resolves [first = 0] for an absent
    start and [max(0, start-1)] for a present one, [last = n-1] for an
    end that is absent or 0 and [min(n-1, end-1)] for any other end; it
    raises the ValueError carrying both inputs and the page count exactly
    when [first > last], and otherwise returns [(first, last)] with
    [0 <= first <= last <= n-1]. *)
Theorem validate_range_contract (start end_ : option Z) (n : Z) :
  1 <= n -> range_contract resolved_last start end_ n.
Proof.
  intros Hn. unfold range_contract. cbv zeta.
  rewrite validate_range_cases. cbv zeta.
  set (first := stated_first start). set (last := resolved_last end_ n).
  assert (Hf : 0 <= first).
  { subst first. destruct start; simpl; lia. }
  assert (Hl : last <= n - 1).
  { subst last. destruct end_ as [[|e|e]|]; simpl; lia. }
  destruct (Z.gtb_spec first last) as [Hgt|Hle].
  - split; [split; [reflexivity|lia]|lia].
  - split; [split; [lia|discriminate]|].
    intros _. split; [reflexivity|lia].
Qed.

Lemma validate_range_contract_witness :
  1 <= 5 /\ range_contract resolved_last (Some 2) (Some 9) 5.
Proof.
  split; [lia|]. apply (validate_range_contract (Some 2) (Some 9) 5). lia.
Defined.

(** C8: for every page count [n >= 1], an end of 0 resolves like an
    absent end: [last = n-1] (not [min(n-1, -1)]), the call succeeds
    with the same pair as for an absent end, and with no start the whole
    document [(0, n-1)] is resolved. *)
Theorem end_zero_is_open_ended (start : option Z) (n : Z) :
  1 <= n ->
  range_last (Some 0) n = n - 1
  /\ (forall r, _validate_range start (Some 0) n = Ok r <->
                _validate_range start None n = Ok r)
  /\ (forall first last, _validate_range start (Some 0) n = Ok (first, last) ->
                         last = n - 1)
  /\ _validate_range None (Some 0) n = Ok (0, n - 1).
Proof.
  intros Hn. split; [reflexivity|]. split; [|split].
  - intros r. unfold _validate_range.
    change (range_last (Some 0) n) with (range_last None n).
    destruct (range_first start >? range_last None n); split; intros E; congruence.
  - intros first last. unfold _validate_range.
    change (range_last (Some 0) n) with (n - 1).
    destruct (range_first start >? n - 1); intros E; congruence.
  - unfold _validate_range.
    change (range_last (Some 0) n) with (n - 1). change (range_first None) with 0.
    destruct (Z.gtb_spec 0 (n - 1)); [lia|reflexivity].
Qed.

Lemma end_zero_is_open_ended_witness :
  1 <= 4 /\ _validate_range None (Some 0) 4 = Ok (0, 3).
Proof.
  split; [lia|]. apply (end_zero_is_open_ended None 4). lia.
Defined.

(** ** Transform chain *)

Lemma Qfloor_frac (a : Z) (b : positive) : Qfloor (a # b) = a / Z.pos b.
Proof. reflexivity. Qed.

Lemma Qceiling_frac (a : Z) (b : positive) : Qceiling (a # b) = - ((- a) / Z.pos b).
Proof. reflexivity. Qed.

(** Whichever of the two neighbours [round_aspect] picks, the result is
    at least 1 and less than one unit away from the exact quotient. *)
Lemma round_aspect_near (number : Q) (key : Z -> Q) (a : Z) (b : positive) :
  0 < a -> (number == a # b)%Q ->
  1 <= round_aspect number key
  /\ Z.abs (round_aspect number key * Z.pos b - a) < Z.pos b.
Proof.
  intros Ha Heq. unfold round_aspect.
  rewrite (Qfloor_comp _ _ Heq), (Qceiling_comp _ _ Heq), Qfloor_frac, Qceiling_frac.
  pose proof (Z.div_mod a (Z.pos b) ltac:(lia)) as Hlo.
  pose proof (Z.mod_pos_bound a (Z.pos b) ltac:(lia)) as Hlo'.
  pose proof (Z.div_mod (- a) (Z.pos b) ltac:(lia)) as Hhi.
  pose proof (Z.mod_pos_bound (- a) (Z.pos b) ltac:(lia)) as Hhi'.
  set (lo := a / Z.pos b) in *. set (hi := (- a) / Z.pos b) in *.
  destruct (Qle_bool _ _); split; nia.
Qed.

Lemma aspect_le_one (w h m : positive) :
  Qle_bool (inject_Z (Z.pos w) / inject_Z (Z.pos h))
           (inject_Z (Z.pos m) / inject_Z (Z.pos m))
  = bool_decide (Z.pos w <= Z.pos h).
Proof.
  destruct (Qle_bool _ _) eqn:E.
  - apply Qle_bool_iff in E. unfold Qle in E. simpl in E.
    symmetry. apply bool_decide_eq_true. nia.
  - symmetry. apply bool_decide_eq_false. intros Hle.
    enough (E' : Qle_bool (inject_Z (Z.pos w) / inject_Z (Z.pos h))
                   (inject_Z (Z.pos m) / inject_Z (Z.pos m)) = true) by congruence.
    apply Qle_bool_iff. unfold Qle. simpl. nia.
Qed.

Lemma width_number (w h m : positive) :
  (inject_Z (Z.pos m) * (inject_Z (Z.pos w) / inject_Z (Z.pos h))
   == (Z.pos m * Z.pos w) # h)%Q.
Proof. unfold Qeq. simpl. lia. Qed.

Lemma height_number (w h m : positive) :
  (inject_Z (Z.pos m) / (inject_Z (Z.pos w) / inject_Z (Z.pos h))
   == (Z.pos m * Z.pos h) # w)%Q.
Proof. unfold Qeq. simpl. lia. Qed.

Section TransformChain.
Context `{Codec}.

Lemma thumbnail_box (img : Image) (m : Z) :
  0 < m -> 0 < width img -> 0 < height img -> m < Z.max (width img) (height img) ->
  exists w' h',
    thumbnail img m m =
      Ok {| mode := mode img; width := w'; height := h';
            samples := px_lanczos (mode img) (width img, height img) (w', h') (samples img) |}
    /\ 1 <= w' /\ 1 <= h' /\ Z.max w' h' = m
    /\ (width img <= height img ->
        h' = m /\ Z.abs (w' * height img - m * width img) < height img)
    /\ (height img < width img ->
        w' = m /\ Z.abs (h' * width img - m * height img) < width img).
Proof.
  intros Hm Hw Hh Hbig. destruct img as [md w h px]; simpl in *.
  unfold thumbnail, preserve_aspect_ratio; simpl.
  destruct ((m >=? w) && (m >=? h)) eqn:Hfit.
  { apply andb_true_iff in Hfit as [? ?]. lia. }
  destruct (Z.eqb_spec h 0); [lia|]. destruct (Z.eqb_spec m 0); [lia|].
  destruct w as [|w|w]; try lia. destruct h as [|h|h]; try lia.
  destruct m as [|m|m]; try lia.
  rewrite aspect_le_one. case_bool_decide as Hwh.
  - destruct (round_aspect_near _
                (fun n => Qabs (inject_Z (Z.pos w) / inject_Z (Z.pos h)
                                - inject_Z n / inject_Z (Z.pos m)))
                (Z.pos m * Z.pos w) h ltac:(lia) (width_number w h m)) as [H1 H2].
    set (r := round_aspect _ _) in *.
    exists r, (Z.pos m). simpl.
    assert (Hne : (Z.pos m =? Z.pos h) = false) by (apply Z.eqb_neq; lia).
    simpl in Hne. rewrite Hne, andb_false_r. unfold resize. simpl.
    destruct (Z.ltb_spec 0 r); [|lia]. simpl.
    split; [reflexivity|]. repeat split; try lia; nia.
  - simpl.
    destruct (round_aspect_near _
                (fun n => if n =? 0 then 0%Q
                          else Qabs (inject_Z (Z.pos w) / inject_Z (Z.pos h)
                                     - inject_Z (Z.pos m) / inject_Z n))
                (Z.pos m * Z.pos h) w ltac:(lia) (height_number w h m)) as [H1 H2].
    set (r := round_aspect _ _) in *.
    exists (Z.pos m), r. simpl.
    assert (Hne : (Z.pos m =? Z.pos w) = false) by (apply Z.eqb_neq; lia).
    simpl in Hne. rewrite Hne. simpl. unfold resize. simpl.
    destruct (Z.ltb_spec 0 r); [|lia]. simpl.
    split; [reflexivity|]. repeat split; try lia; nia.
Qed.

Lemma thumbnail_mode (img out : Image) (x y : Z) :
  thumbnail img x y = Ok out -> mode out = mode img.
Proof.
  unfold thumbnail. destruct (preserve_aspect_ratio img x y) as [[[w' h']|]|e]; simpl.
  - destruct ((w' =? width img) && (h' =? height img)); [congruence|].
    unfold resize. destruct ((0 <? w') && (0 <? h')); [|discriminate].
    intros [= <-]. reflexivity.
  - congruence.
  - discriminate.
Qed.

Lemma downscale_mode (img out : Image) (max_dim : option Z) :
  _maybe_downscale img max_dim = Ok out -> mode out = mode img.
Proof.
  unfold _maybe_downscale.
  destruct (truthy max_dim && _); [apply thumbnail_mode|congruence].
Qed.

Lemma downscale_returns (img : Image) (max_dim : option Z) :
  0 < width img -> 0 < height img -> (forall m, max_dim = Some m -> 0 <= m) ->
  exists out, _maybe_downscale img max_dim = Ok out.
Proof.
  intros Hw Hh Hm. unfold _maybe_downscale.
  destruct max_dim as [m|]; simpl; [|eauto].
  specialize (Hm m eq_refl).
  destruct (Z.eqb_spec m 0); simpl; [eauto|].
  destruct (Z.gtb_spec (Z.max (width img) (height img)) m); [|eauto].
  destruct (thumbnail_box img m) as (w' & h' & E & _); [lia..|].
  rewrite E. eauto.
Qed.

Lemma flatten_rgba (img : Image) :
  mode img = MRGBA ->
  let composite :=
    {| mode := MRGBA; width := width img; height := height img;
       samples := px_alpha_composite (px_new MRGBA (width img) (height img) white)
                    (samples img) |} in
  alpha_composite (Image_new MRGBA (width img) (height img) white) img = Ok composite
  /\ _flatten_to_rgb img = Ok (convert composite MRGB).
Proof.
  intros Hmode. cbv zeta.
  assert (E : alpha_composite (Image_new MRGBA (width img) (height img) white) img = Ok
    {| mode := MRGBA; width := width img; height := height img;
       samples := px_alpha_composite (px_new MRGBA (width img) (height img) white)
                    (samples img) |}).
  { unfold alpha_composite, Image_new; simpl. rewrite Hmode, !Z.eqb_refl. reflexivity. }
  split; [exact E|].
  unfold _flatten_to_rgb. rewrite Hmode. simpl. rewrite E. reflexivity.
Qed.

Lemma flatten_rgb_fixed (img : Image) : mode img = MRGB -> _flatten_to_rgb img = Ok img.
Proof. intros Hi. unfold _flatten_to_rgb. rewrite Hi. reflexivity. Qed.

Lemma flatten_returns_rgb (img : Image) :
  exists out, _flatten_to_rgb img = Ok out /\ mode out = MRGB.
Proof.
  destruct (decide (mode img = MRGBA)) as [Ha|Ha].
  - destruct (flatten_rgba img Ha) as [_ E]. eexists. split; [exact E|reflexivity].
  - destruct (decide (mode img = MRGB)) as [Hr|Hr].
    + exists img. split; [apply flatten_rgb_fixed|]; assumption.
    + exists (convert img MRGB). split; [|reflexivity]. unfold _flatten_to_rgb.
      rewrite (bool_decide_eq_false_2 _ Ha), (bool_decide_eq_true_2 _ Hr). reflexivity.
Qed.

(** C10: for every image the flatten step returns an image in RGB mode;
    an image already in RGB mode is returned unchanged; flattening the
    result again returns it unchanged, so twice equals once. *)
Theorem flatten_to_rgb_idempotent (img : Image) :
  exists out,
    _flatten_to_rgb img = Ok out
    /\ mode out = MRGB
    /\ (mode img = MRGB -> out = img)
    /\ _flatten_to_rgb out = Ok out
    /\ (_flatten_to_rgb img ≫= _flatten_to_rgb) = _flatten_to_rgb img.
Proof.
  destruct (flatten_returns_rgb img) as (out & E & Hout).
  exists out. split; [exact E|]. split; [exact Hout|]. split.
  - intros Hi. rewrite (flatten_rgb_fixed img Hi) in E. congruence.
  - rewrite E. simpl. split; apply flatten_rgb_fixed, Hout.
Qed.

(** C2: for every RGBA image, target jpg or webp and grayscale on, the
    chain composites the image over opaque white and drops alpha first,
    and converts the flattened image to luminance second; the result of
    the chain has mode L, which has no alpha channel.  (Desaturating
    first would leave the flatten step to return an RGB image.) *)
Theorem flatten_precedes_grayscale (fmt : string) (max_dim : option Z) (img : Image) :
  mode img = MRGBA -> fmt = "jpg" \/ fmt = "webp" ->
  exists composite,
    alpha_composite (Image_new MRGBA (width img) (height img) white) img = Ok composite
    /\ _flatten_to_rgb img = Ok (convert composite MRGB)
    /\ transform fmt true max_dim img
       = _maybe_downscale (convert (convert composite MRGB) ML) max_dim
    /\ transform fmt true None img = Ok (convert (convert composite MRGB) ML)
    /\ (forall out, transform fmt true max_dim img = Ok out ->
                    mode out = ML /\ has_alpha (mode out) = false)
    /\ (0 < width img -> 0 < height img -> (forall m, max_dim = Some m -> 0 <= m) ->
        exists out, transform fmt true max_dim img = Ok out)
    /\ (forall out, _flatten_to_rgb (convert img ML) = Ok out -> mode out = MRGB).
Proof.
  intros Hmode Hfmt.
  destruct (flatten_rgba img Hmode) as [Ec Ef].
  match type of Ec with _ = Ok ?c => set (composite := c) in * end.
  exists composite. split; [exact Ec|]. split; [exact Ef|].
  assert (Hin : bool_decide (fmt ∈ ({["jpg"; "webp"]} : gset string)) = true).
  { apply bool_decide_eq_true_2. destruct Hfmt as [-> | ->]; set_solver. }
  assert (Et : forall md, transform fmt true md img
      = _maybe_downscale (convert (convert composite MRGB) ML) md).
  { intros md. unfold transform. rewrite Hin, Ef. reflexivity. }
  split; [apply Et|]. split; [rewrite Et; reflexivity|].
  split; [|split].
  - intros out. rewrite Et. intros E. apply downscale_mode in E.
    rewrite E. split; reflexivity.
  - intros Hw Hh Hm. rewrite Et. apply downscale_returns; simpl; assumption.
  - intros out. unfold _flatten_to_rgb. simpl. intros [= <-]. reflexivity.
Qed.

(** C6: for every image and every positive [max_dim], an image with
    both sides at most [max_dim] is returned unchanged; an image whose
    larger side exceeds [max_dim] is resized so that its larger side
    equals [max_dim], no side grows, and the smaller side is less than
    one pixel away from the one the exact aspect ratio gives. *)
Theorem downscale_shrink_only (img : Image) (m : Z) :
  0 < m ->
  (width img <= m -> height img <= m -> _maybe_downscale img (Some m) = Ok img)
  /\ (0 < width img -> 0 < height img -> m < Z.max (width img) (height img) ->
      exists out,
        _maybe_downscale img (Some m) = Ok out
        /\ mode out = mode img
        /\ Z.max (width out) (height out) = m
        /\ 1 <= width out <= width img /\ 1 <= height out <= height img
        /\ (width img <= height img ->
            height out = m
            /\ Z.abs (width out * height img - m * width img) < height img)
        /\ (height img < width img ->
            width out = m
            /\ Z.abs (height out * width img - m * height img) < width img)).
Proof.
  intros Hm. unfold _maybe_downscale, truthy, int_of. simpl.
  destruct (Z.eqb_spec m 0); [lia|]. simpl. split.
  - intros Hw Hh. destruct (Z.gtb_spec (Z.max (width img) (height img)) m); [lia|reflexivity].
  - intros Hw Hh Hbig.
    destruct (Z.gtb_spec (Z.max (width img) (height img)) m); [|lia].
    destruct (thumbnail_box img m) as (w' & h' & E & Hw' & Hh' & Hmax & Hp & Hl); [lia..|].
    eexists. split; [exact E|]. simpl. split; [reflexivity|]. split; [exact Hmax|].
    destruct (Z.le_gt_cases (width img) (height img)) as [Hc|Hc].
    + destruct (Hp Hc) as [-> Habs]. repeat split; try lia; try nia.
    + destruct (Hl Hc) as [-> Habs]. repeat split; try lia; try nia.
Qed.

End TransformChain.

Lemma flatten_precedes_grayscale_witness :
  exists out, transform (H := Sample.codec) "jpg" true (Some 1) Sample.rgba_image = Ok out
              /\ mode out = ML.
Proof.
  destruct (flatten_precedes_grayscale (H := Sample.codec) "jpg" (Some 1) Sample.rgba_image
              eq_refl (or_introl eq_refl)) as (c & _ & _ & _ & _ & Hmode & Hret & _).
  destruct Hret as [out Hout]; [simpl; lia | simpl; lia | intros m [= <-]; lia |].
  exists out. split; [exact Hout|]. apply (Hmode out Hout).
Defined.

Lemma downscale_shrink_only_witness :
  0 < 3 /\ exists out, _maybe_downscale (H := Sample.codec) Sample.wide_image (Some 3) = Ok out
                       /\ Z.max (width out) (height out) = 3.
Proof.
  split; [lia|].
  destruct (downscale_shrink_only (H := Sample.codec) Sample.wide_image 3 ltac:(lia))
    as [_ Hbig].
  destruct Hbig as (out & E & _ & Hmax & _); [simpl; lia..|].
  exists out. split; assumption.
Defined.

(** ** The file system under [mkdir] *)

Lemma mkdir_from_only_adds_dirs rest : forall pre m m',
  mkdir_from pre rest m = Ok m' ->
  forall p, m' !! p = m !! p \/ (m !! p = None /\ m' !! p = Some Dir).
Proof.
  induction rest as [|c rest IH]; intros pre m m' E p; simpl in E.
  - injection E as <-. by left.
  - destruct (m !! (pre ++ [c])) as [[|f]|] eqn:Hp.
    + eauto.
    + discriminate.
    + destruct (IH _ _ _ E p) as [Hs|[Hn Hd]].
      * destruct (decide (pre ++ [c] = p)) as [<-|Hne].
        -- rewrite lookup_insert_eq in Hs. right. by rewrite Hs.
        -- rewrite lookup_insert_ne in Hs by done. by left.
      * destruct (decide (pre ++ [c] = p)) as [<-|Hne].
        -- by rewrite lookup_insert_eq in Hn.
        -- rewrite lookup_insert_ne in Hn by done. by right.
Qed.

Lemma mkdir_from_keeps rest pre m m' p n :
  mkdir_from pre rest m = Ok m' -> m !! p = Some n -> m' !! p = Some n.
Proof.
  intros E Hp. destruct (mkdir_from_only_adds_dirs _ _ _ _ E p) as [->|[Hn _]]; congruence.
Qed.

Lemma lookup_path_keeps (m m' : gmap path node) :
  (forall p n, m !! p = Some n -> m' !! p = Some n) ->
  forall p n, lookup_path m p = Some n -> lookup_path m' p = Some n.
Proof. intros Hk [|c p] n; simpl; auto. Qed.

Lemma mkdir_from_makes rest : forall pre m m',
  mkdir_from pre rest m = Ok m' -> lookup_path m pre = Some Dir ->
  lookup_path m' (pre ++ rest) = Some Dir.
Proof.
  induction rest as [|c rest IH]; intros pre m m' E Hpre; simpl in E.
  - injection E as <-. by rewrite app_nil_r.
  - assert (Hne : forall (q : gmap path node), lookup_path q (pre ++ [c]) = q !! (pre ++ [c])).
    { intros q. destruct pre; reflexivity. }
    replace (pre ++ c :: rest) with ((pre ++ [c]) ++ rest) by (by rewrite <- app_assoc).
    destruct (m !! (pre ++ [c])) as [[|f]|] eqn:Hp.
    + apply (IH _ _ _ E). by rewrite Hne.
    + discriminate.
    + apply (IH _ _ _ E). by rewrite Hne, lookup_insert_eq.
Qed.
Lemma lookup_path_cons (m : gmap path node) (p : path) :
  p <> [] -> lookup_path m p = m !! p.
Proof. destruct p; [done|reflexivity]. Qed.

Lemma mkdir_from_dirs_kept pre rest m m' :
  mkdir_from pre rest m = Ok m' -> dirs_kept m m'.
Proof.
  intros E p. destruct p as [|c p]; [done|]. simpl.
  apply (mkdir_from_keeps _ _ _ _ _ _ E).
Qed.

Lemma mkdir_parents_result (p : path) (w : World) :
  match mkdir_from [] p (fs w) with
  | Ok m => mkdir_parents p w = (Ok tt, {| fs := m; trace := trace w ++ [EvMkdir p] |})
  | Raise e => mkdir_parents p w
               = (Raise e, {| fs := fs w; trace := trace w ++ [EvMkdir p] |})
  end.
Proof. unfold mkdir_parents. simpl. destruct (mkdir_from [] p (fs w)); reflexivity. Qed.

Lemma mkdir_from_raises rest : forall pre m e,
  mkdir_from pre rest m = Raise e -> ~ refused_before_pages e.
Proof.
  induction rest as [|c rest IH]; intros pre m e; simpl; [discriminate|].
  destruct (m !! (pre ++ [c])) as [[|f]|]; eauto.
  destruct rest; intros [= <-]; simpl; tauto.
Qed.


(** ** Relations kept by every step *)

Section Keeps.
Context (R : relation (gmap path node)) `{!Reflexive R, !Transitive R}.

Lemma keeps_ret {A} (a : A) : keeps R (mret a : IO A).
Proof. intros w. simpl. reflexivity. Qed.

Lemma keeps_raise {A} (e : exn) : keeps R (raise e : IO A).
Proof. intros w. simpl. reflexivity. Qed.

Lemma keeps_lift {A} (r : result A) : keeps R (lift r).
Proof. intros w. simpl. reflexivity. Qed.

Lemma keeps_log (e : event) : keeps R (log e).
Proof. intros w. simpl. reflexivity. Qed.

Lemma keeps_bind {A B} (c : IO A) (k : A -> IO B) :
  keeps R c -> (forall a, keeps R (k a)) -> keeps R (c ≫= k).
Proof.
  intros Hc Hk w. unfold mbind, IO_bind. specialize (Hc w).
  destruct (c w) as [[a|e] w1]; simpl in *; [|exact Hc].
  etransitivity; [exact Hc|apply Hk].
Qed.

Lemma keeps_for_each {A} (xs : list A) (body : A -> IO unit) :
  (forall x, keeps R (body x)) -> keeps R (for_each xs body).
Proof.
  intros Hb. induction xs as [|x xs IH]; simpl.
  - apply keeps_ret.
  - apply keeps_bind; [apply Hb|intros _; exact IH].
Qed.

Lemma keeps_path_exists (p : path) : keeps R (path_exists p).
Proof. intros w. simpl. reflexivity. Qed.

Lemma keeps_is_file (p : path) : keeps R (is_file p).
Proof. intros w. simpl. reflexivity. Qed.

End Keeps.

#[local] Instance dirs_kept_refl : Reflexive dirs_kept.
Proof. intros m p Hp. exact Hp. Qed.

#[local] Instance dirs_kept_trans : Transitive dirs_kept.
Proof. intros a b c Hab Hbc p Hp. apply Hbc, Hab, Hp. Qed.

#[local] Instance entries_kept_refl : Reflexive entries_kept.
Proof. intros m p n Hp. exact Hp. Qed.

#[local] Instance entries_kept_trans : Transitive entries_kept.
Proof. intros a b c Hab Hbc p n Hp. apply Hbc, Hab, Hp. Qed.

Ltac keeps_step :=
  lazymatch goal with
  | |- Reflexive _ => typeclasses eauto
  | |- Transitive _ => typeclasses eauto
  | |- keeps _ (mret _) => apply keeps_ret
  | |- keeps _ (raise _) => apply keeps_raise
  | |- keeps _ (lift _) => apply keeps_lift
  | |- keeps _ (log _) => apply keeps_log
  | |- keeps _ (path_exists _) => apply keeps_path_exists
  | |- keeps _ (is_file _) => apply keeps_is_file
  | |- keeps _ (for_each _ _) => apply keeps_for_each; [..|intros ?]
  | |- keeps _ (_ ≫= _) => apply keeps_bind; [..|intros ?]
  end.

Ltac keeps_steps := repeat keeps_step.

Section Steps.
Context `{Codec}.

Lemma save_keeps_dirs img f params : keeps dirs_kept (save img f params).
Proof.
  intros w p Hp. unfold save. simpl.
  destruct (lookup_path (fs w) f) as [[|c]|] eqn:Hf; simpl; [exact Hp|..].
  - destruct p as [|a p]; [done|]. simpl in *.
    rewrite lookup_insert_ne; [exact Hp|]. intros ->. simpl in Hf. congruence.
  - destruct p as [|a p]; [done|]. simpl in *.
    rewrite lookup_insert_ne; [exact Hp|]. intros ->. simpl in Hf. congruence.
Qed.

Lemma doc_getitem_keeps R `{!Reflexive R} doc i : keeps R (doc_getitem doc i).
Proof. unfold doc_getitem. destruct (if 0 <=? i then _ else _); keeps_steps. Qed.

Lemma export_page_keeps_dirs doc pdf_path out zoom fmt quality overwrite
    filename_template grayscale max_dim i :
  keeps dirs_kept (export_page doc pdf_path out zoom fmt quality overwrite
                     filename_template grayscale max_dim i).
Proof.
  unfold export_page, render. keeps_steps; [apply doc_getitem_keeps; typeclasses eauto|].
  destruct (_ && _); [keeps_steps|apply save_keeps_dirs].
Qed.

Lemma convert_document_keeps R `{!Reflexive R, !Transitive R} doc pdf_path out zoom fmt
    quality start end_ overwrite filename_template password grayscale max_dim :
  (forall i, keeps R (export_page doc pdf_path out zoom fmt quality overwrite
                        filename_template grayscale max_dim i)) ->
  keeps R (convert_document doc pdf_path out zoom fmt quality start end_ overwrite
             filename_template password grayscale max_dim).
Proof.
  intros Hpage. unfold convert_document, doc_authenticate. keeps_steps.
  - destruct (needs_pass doc); [|keeps_steps].
    destruct (negb (truthy_str password)); keeps_steps.
    destruct (negb _); keeps_steps.
  - match goal with p : (Z * Z)%type |- _ => destruct p as [first last] end.
    keeps_steps. apply Hpage.
Qed.

Lemma with_open_keeps R `{!Reflexive R} {A} (p : path) (body : Document -> IO A) :
  (forall doc, keeps R (body doc)) -> keeps R (with_open p body).
Proof.
  intros Hb w. unfold with_open, fitz_open. simpl.
  destruct (lookup_path (fs w) p) as [[|[doc|bytes]]|]; simpl; try reflexivity.
  specialize (Hb doc {| fs := fs w; trace := trace w ++ [EvOpen p] |}).
  destruct (body doc _) as [r w2]. exact Hb.
Qed.

Lemma mkdir_parents_keeps_entries (p : path) : keeps entries_kept (mkdir_parents p).
Proof.
  intros w. pose proof (mkdir_parents_result p w) as E.
  destruct (mkdir_from [] p (fs w)) as [m|e] eqn:Hmk; rewrite E; simpl; [|reflexivity].
  intros q n. apply (mkdir_from_keeps _ _ _ _ _ _ Hmk).
Qed.

Lemma export_page_keeps_entries doc pdf_path out zoom fmt quality
    filename_template grayscale max_dim i :
  keeps entries_kept (export_page doc pdf_path out zoom fmt quality false
                        filename_template grayscale max_dim i).
Proof.
  unfold export_page, render.
  apply keeps_bind;
    [typeclasses eauto..|apply doc_getitem_keeps; typeclasses eauto|intros page].
  apply keeps_bind; [typeclasses eauto..|keeps_steps|intros pix].
  apply keeps_bind; [typeclasses eauto..|keeps_steps|intros img].
  apply keeps_bind; [typeclasses eauto..|keeps_steps|intros f].
  intros w. unfold mbind, IO_bind, path_exists, save. simpl.
  destruct (lookup_path (fs w) f) as [n|] eqn:Hf; simpl.
  - reflexivity.
  - rewrite Hf. simpl. intros p n Hp. rewrite lookup_insert_ne; [exact Hp|].
    intros ->. destruct p; simpl in Hf; congruence.
Qed.

Lemma run_keeps_entries pdf_path out_dir dpi quality start end_ fmt
    filename_template password grayscale max_dim :
  keeps entries_kept
    (pdf_to_images pdf_path out_dir dpi quality start end_ fmt false
       filename_template password grayscale max_dim).
Proof.
  unfold pdf_to_images. cbv zeta.
  repeat (match goal with |- keeps _ (if ?b then _ else _) => destruct b end; keeps_steps).
  unfold _ensure_outdir. keeps_steps.
  - apply mkdir_parents_keeps_entries.
  - apply with_open_keeps; [typeclasses eauto|]. intros doc.
    apply convert_document_keeps; [typeclasses eauto..|].
    intros i. apply export_page_keeps_entries.
Qed.

End Steps.

(** ** Which exceptions come from where *)

Section Exceptions.
Context `{Codec}.







Lemma outdir_of_raises pdf_path out_dir e :
  outdir_of pdf_path out_dir = Raise e -> ~ refused_before_pages e.
Proof.
  unfold outdir_of, with_suffix_empty. destruct out_dir; [discriminate|].
  destruct (String.eqb _ _); [|discriminate]. intros [= <-]. simpl. tauto.
Qed.

End Exceptions.

(** ** Whole runs *)

Section Runs.
Context `{Codec}.

Lemma valid_format_passes fmt dpi quality :
  request_ok fmt dpi quality ->
  negb (bool_decide (normalize_format fmt ∈ VALID_FORMATS)) = false
  /\ (dpi <=? 0) = false
  /\ bool_decide (normalize_format fmt ∈ ({["jpg"; "webp"]} : gset string))
       && negb ((1 <=? quality) && (quality <=? 100)) = false.
Proof.
  intros (Hf & Hd & Hq). split; [|split].
  - by rewrite bool_decide_eq_true_2.
  - lia.
  - case_bool_decide as Hin; [|done]. specialize (Hq Hin). simpl.
    apply negb_false_iff, andb_true_iff. lia.
Qed.

Lemma run_reaches_document pdf_path out_dir dpi quality start end_ fmt overwrite
    filename_template password grayscale max_dim w doc out m :
  request_ok fmt dpi quality ->
  lookup_path (fs w) pdf_path = Some (File (PdfFile doc)) ->
  outdir_of pdf_path out_dir = Ok out ->
  mkdir_from [] out (fs w) = Ok m ->
  pdf_to_images pdf_path out_dir dpi quality start end_ fmt overwrite
    filename_template password grayscale max_dim w
  = let r := convert_document doc pdf_path out (Qmake dpi 72) (normalize_format fmt)
               quality start end_ overwrite filename_template password grayscale max_dim
               (opened w m out pdf_path) in
    (r.1 ≫= (fun _ => Ok out), closed r.2).
Proof.
  intros Hok Hfile Hout Hmk.
  destruct (valid_format_passes _ _ _ Hok) as (E1 & E2 & E3).
  unfold pdf_to_images. cbv zeta. rewrite E1, E2, E3.
  unfold mbind, IO_bind, is_file at 1. rewrite Hfile. simpl.
  unfold _ensure_outdir, mbind, IO_bind, lift. rewrite Hout.
  unfold mkdir_parents. simpl. rewrite Hmk. simpl.
  unfold with_open, fitz_open. simpl.
  rewrite (lookup_path_keeps _ _ (fun p n => mkdir_from_keeps _ _ _ _ p n Hmk) _ _ Hfile).
  unfold opened. rewrite <- app_assoc. simpl.
  destruct (convert_document _ _ _ _ _ _ _ _ _ _ _ _ _ _) as [[[]|e] w2]; reflexivity.
Qed.

Lemma encrypted_no_password doc pdf_path out zoom fmt quality start end_ overwrite
    filename_template password grayscale max_dim w :
  needs_pass doc = true -> truthy_str password = false ->
  convert_document doc pdf_path out zoom fmt quality start end_ overwrite
    filename_template password grayscale max_dim w
  = (Raise (PermissionError EncryptedNoPassword), w).
Proof.
  intros Hn Hp. unfold convert_document. rewrite Hn, Hp. reflexivity.
Qed.

Lemma encrypted_wrong_password doc pdf_path out zoom fmt quality start end_ overwrite
    filename_template pw grayscale max_dim w :
  needs_pass doc = true -> pw <> "" -> authenticate doc pw = false ->
  convert_document doc pdf_path out zoom fmt quality start end_ overwrite
    filename_template (Some pw) grayscale max_dim w
  = (Raise (PermissionError IncorrectPassword),
     {| fs := fs w; trace := trace w ++ [EvAuthenticate pw] |}).
Proof.
  intros Hn Hp Ha. unfold convert_document. rewrite Hn. simpl.
  destruct (String.eqb_spec pw ""); [done|]. simpl.
  unfold doc_authenticate, mbind, IO_bind, log, mret, IO_ret. simpl. rewrite Ha. reflexivity.
Qed.

Lemma run_unreadable_document pdf_path out_dir dpi quality start end_ fmt overwrite
    filename_template password grayscale max_dim w bytes out m :
  request_ok fmt dpi quality ->
  lookup_path (fs w) pdf_path = Some (File (Blob bytes)) ->
  outdir_of pdf_path out_dir = Ok out ->
  mkdir_from [] out (fs w) = Ok m ->
  pdf_to_images pdf_path out_dir dpi quality start end_ fmt overwrite
    filename_template password grayscale max_dim w
  = (Raise (FileDataError pdf_path), opened w m out pdf_path).
Proof.
  intros Hok Hfile Hout Hmk.
  destruct (valid_format_passes _ _ _ Hok) as (E1 & E2 & E3).
  unfold pdf_to_images. cbv zeta. rewrite E1, E2, E3.
  unfold mbind, IO_bind, is_file at 1. rewrite Hfile. simpl.
  unfold _ensure_outdir, mbind, IO_bind, lift. rewrite Hout.
  unfold mkdir_parents. simpl. rewrite Hmk. simpl.
  unfold with_open, fitz_open. simpl.
  rewrite (lookup_path_keeps _ _ (fun p n => mkdir_from_keeps _ _ _ _ p n Hmk) _ _ Hfile).
  unfold opened. rewrite <- app_assoc. reflexivity.
Qed.

(** A run either stops with an exception of the checks, of the output
    directory or of the opening, or it gets to the open document. *)
Lemma run_stops_early_or_reaches_document pdf_path out_dir dpi quality start end_ fmt
    overwrite filename_template password grayscale max_dim w :
  (exists e w',
     pdf_to_images pdf_path out_dir dpi quality start end_ fmt overwrite
       filename_template password grayscale max_dim w = (Raise e, w')
     /\ ~ refused_before_pages e)
  \/ (exists doc out m,
        request_ok fmt dpi quality
        /\ lookup_path (fs w) pdf_path = Some (File (PdfFile doc))
        /\ outdir_of pdf_path out_dir = Ok out
        /\ mkdir_from [] out (fs w) = Ok m).
Proof.
  destruct (decide (normalize_format fmt ∈ VALID_FORMATS)) as [Hv|Hv]; cycle 1.
  { left. unfold pdf_to_images. cbv zeta. rewrite (bool_decide_eq_false_2 _ Hv). simpl.
    do 2 eexists. split; [reflexivity|]. simpl. tauto. }
  destruct (Z.leb_spec dpi 0) as [Hd|Hd].
  { left. unfold pdf_to_images. cbv zeta. rewrite (bool_decide_eq_true_2 _ Hv). simpl.
    destruct (Z.leb_spec dpi 0); [|lia].
    do 2 eexists. split; [reflexivity|]. simpl. tauto. }
  destruct (bool_decide (normalize_format fmt ∈ ({["jpg"; "webp"]} : gset string))
            && negb ((1 <=? quality) && (quality <=? 100))) eqn:Hq.
  { left. unfold pdf_to_images. cbv zeta. rewrite (bool_decide_eq_true_2 _ Hv). simpl.
    destruct (Z.leb_spec dpi 0); [lia|]. rewrite Hq.
    do 2 eexists. split; [reflexivity|]. simpl. tauto. }
  assert (Hok : request_ok fmt dpi quality).
  { split; [exact Hv|]. split; [lia|]. intros Hin.
    rewrite (bool_decide_eq_true_2 _ Hin) in Hq. simpl in Hq.
    apply negb_false_iff, andb_true_iff in Hq. lia. }
  destruct (valid_format_passes _ _ _ Hok) as (E1 & E2 & E3).
  destruct (lookup_path (fs w) pdf_path) as [[|c]|] eqn:Hfile.
  1, 3: left; unfold pdf_to_images; cbv zeta; rewrite E1, E2, E3;
        unfold mbind, IO_bind, is_file at 1; rewrite Hfile; simpl;
        do 2 eexists; (split; [reflexivity|simpl; tauto]).
  destruct (outdir_of pdf_path out_dir) as [out|e] eqn:Hout.
  2: { left. unfold pdf_to_images. cbv zeta. rewrite E1, E2, E3.
       unfold mbind, IO_bind, is_file at 1. rewrite Hfile. simpl.
       unfold _ensure_outdir, mbind, IO_bind, lift. rewrite Hout.
       do 2 eexists. split; [reflexivity|]. eapply outdir_of_raises; eauto. }
  destruct (mkdir_from [] out (fs w)) as [m|e] eqn:Hmk.
  2: { left. unfold pdf_to_images. cbv zeta. rewrite E1, E2, E3.
       unfold mbind, IO_bind, is_file at 1. rewrite Hfile. simpl.
       unfold _ensure_outdir, mbind, IO_bind, lift. rewrite Hout.
       unfold mkdir_parents. simpl. rewrite Hmk.
       do 2 eexists. split; [reflexivity|]. eapply mkdir_from_raises; eauto. }
  destruct c as [doc|bytes].
  - right. exists doc, out, m. auto.
  - left. rewrite (run_unreadable_document _ _ _ _ _ _ _ _ _ _ _ _ _ _ _ _ Hok Hfile Hout Hmk).
    do 2 eexists. split; [reflexivity|]. simpl. tauto.
Qed.

Lemma out_file_nonempty pdf_path out filename_template fmt i f :
  out_file_of pdf_path out filename_template fmt i = Ok f -> f <> [].
Proof.
  unfold out_file_of. destruct (format_template _ _ _); [|discriminate].
  intros [= <-]. destruct out; discriminate.
Qed.


(** C4: for every password-protected document that the run gets to
    open, a missing (or empty) password fails with the PermissionError
    for an encrypted document and a rejected password with the distinct
    PermissionError for an incorrect one; in both cases the log of calls
    ends before any range resolution, rendering or save, and the file
    system holds no file it did not hold before. *)
Theorem encrypted_document_is_refused pdf_path out_dir dpi quality start end_ fmt
    overwrite filename_template password grayscale max_dim w doc out m :
  request_ok fmt dpi quality ->
  lookup_path (fs w) pdf_path = Some (File (PdfFile doc)) ->
  outdir_of pdf_path out_dir = Ok out ->
  mkdir_from [] out (fs w) = Ok m ->
  needs_pass doc = true ->
  (truthy_str password = false ->
     pdf_to_images pdf_path out_dir dpi quality start end_ fmt overwrite
       filename_template password grayscale max_dim w
     = (Raise (PermissionError EncryptedNoPassword),
        {| fs := m; trace := trace w ++ [EvMkdir out; EvOpen pdf_path; EvClose] |}))
  /\ (forall pw, password = Some pw -> pw <> "" -> authenticate doc pw = false ->
     pdf_to_images pdf_path out_dir dpi quality start end_ fmt overwrite
       filename_template password grayscale max_dim w
     = (Raise (PermissionError IncorrectPassword),
        {| fs := m;
           trace := trace w ++ [EvMkdir out; EvOpen pdf_path; EvAuthenticate pw; EvClose] |}))
  /\ (forall p c, m !! p = Some (File c) -> fs w !! p = Some (File c)).
Proof.
  intros Hok Hfile Hout Hmk Hn. split; [|split].
  - intros Hp. rewrite (run_reaches_document _ _ _ _ _ _ _ _ _ _ _ _ _ _ _ _ Hok Hfile Hout Hmk).
    cbv zeta. rewrite encrypted_no_password by assumption.
    unfold closed, opened. simpl. by rewrite <- app_assoc.
  - intros pw -> Hp Ha.
    rewrite (run_reaches_document _ _ _ _ _ _ _ _ _ _ _ _ _ _ _ _ Hok Hfile Hout Hmk).
    cbv zeta. rewrite encrypted_wrong_password by assumption.
    unfold closed, opened. simpl. by rewrite <- !app_assoc.
  - intros p c Hp.
    destruct (mkdir_from_only_adds_dirs _ _ _ _ Hmk p) as [E|[_ E]]; congruence.
Qed.


(** C3: for jpg and webp every quality outside 1..100 stops the run
    with a ValueError and leaves the world as it was, so the document is
    never opened; for png the run does not depend on the quality at
    all: no value is refused and the same bytes are written. *)
Theorem quality_checked_only_for_lossy pdf_path out_dir dpi start end_ fmt overwrite
    filename_template password grayscale max_dim :
  (normalize_format fmt = "jpg" \/ normalize_format fmt = "webp" ->
   forall quality w, ~ (1 <= quality <= 100) ->
     pdf_to_images pdf_path out_dir dpi quality start end_ fmt overwrite
       filename_template password grayscale max_dim w
     = (Raise (ValueError (if dpi <=? 0 then DpiNotPositive else QualityOutOfRange)), w))
  /\ (normalize_format fmt = "png" ->
      forall q1 q2 w,
        pdf_to_images pdf_path out_dir dpi q1 start end_ fmt overwrite
          filename_template password grayscale max_dim w
        = pdf_to_images pdf_path out_dir dpi q2 start end_ fmt overwrite
            filename_template password grayscale max_dim w).
Proof.
  split.
  - intros Hfmt quality w Hq. unfold pdf_to_images. cbv zeta.
    assert (Hv : bool_decide (normalize_format fmt ∈ VALID_FORMATS) = true).
    { apply bool_decide_eq_true_2. destruct Hfmt as [-> | ->]; set_solver. }
    assert (Hl : bool_decide (normalize_format fmt ∈ ({["jpg"; "webp"]} : gset string)) = true).
    { apply bool_decide_eq_true_2. destruct Hfmt as [-> | ->]; set_solver. }
    rewrite Hv, Hl. simpl.
    destruct (dpi <=? 0); [reflexivity|].
    assert (Hr : (1 <=? quality) && (quality <=? 100) = false).
    { apply andb_false_iff. lia. }
    rewrite Hr. reflexivity.
  - intros Hfmt q1 q2 w. unfold pdf_to_images. cbv zeta.
    assert (Hl : bool_decide (normalize_format fmt ∈ ({["jpg"; "webp"]} : gset string)) = false).
    { apply bool_decide_eq_false_2. rewrite Hfmt. intros Hin.
      apply elem_of_union in Hin as [Hin|Hin]; apply elem_of_singleton in Hin;
        discriminate Hin. }
    rewrite Hl, Hfmt. reflexivity.
Qed.




(** C5: with overwrite disabled, a page whose output path exists is
    skipped: no exception, the file system unchanged, the loop goes on
    with the next page, and over a whole run every entry that existed
    keeps its content; with overwrite enabled the existing file is
    replaced by the newly encoded page. *)
Theorem overwrite_policy doc pdf_path out zoom fmt quality filename_template grayscale
    max_dim i page img f w :
  0 <= i -> pages doc !! Z.to_nat i = Some page ->
  (let pix := get_pixmap page zoom true in
   transform fmt grayscale max_dim
     (frombytes (if alpha pix then MRGBA else MRGB) (pix_width pix) (pix_height pix)
        (pix_samples pix)) = Ok img) ->
  out_file_of pdf_path out filename_template fmt i = Ok f ->
  is_Some (fs w !! f) ->
  let page_with overwrite :=
    export_page doc pdf_path out zoom fmt quality overwrite filename_template
      grayscale max_dim in
  let rendered := {| fs := fs w; trace := trace w ++ [EvRender i] |} in
  page_with false i w = (Ok tt, rendered)
  /\ (forall rest, for_each (i :: rest) (page_with false) w
                   = for_each rest (page_with false) rendered)
  /\ (forall old, fs w !! f = Some (File old) ->
        page_with true i w
        = (Ok tt, {| fs := <[f := File (Blob (encode (save_kwargs fmt quality) img))]> (fs w);
                     trace := trace w ++ [EvRender i; EvSave f] |}))
  /\ (forall pdf_path' out_dir dpi quality' start end_ fmt' template' password
             grayscale' max_dim' w0 p n,
        fs w0 !! p = Some n ->
        fs (pdf_to_images pdf_path' out_dir dpi quality' start end_ fmt' false
              template' password grayscale' max_dim' w0).2 !! p = Some n).
Proof.
  intros Hi Hpage Himg Hf Hthere. cbv zeta in *.
  pose proof (out_file_nonempty _ _ _ _ _ _ Hf) as Hne.
  assert (Hskip : export_page doc pdf_path out zoom fmt quality false filename_template
                    grayscale max_dim i w
                  = (Ok tt, {| fs := fs w; trace := trace w ++ [EvRender i] |})).
  { unfold export_page, doc_getitem, render, mbind, IO_bind, lift, log, mret, IO_ret,
      path_exists.
    destruct (Z.leb_spec 0 i); [|lia]. rewrite Hpage. simpl. rewrite Himg, Hf. simpl.
    rewrite (lookup_path_cons _ _ Hne), (bool_decide_eq_true_2 _ Hthere). reflexivity. }
  split; [exact Hskip|]. split; [|split].
  - intros rest. simpl. unfold mbind at 1, IO_bind at 1. rewrite Hskip. reflexivity.
  - intros old Hold.
    unfold export_page, doc_getitem, render, mbind, IO_bind, lift, log, mret, IO_ret,
      path_exists, save.
    destruct (Z.leb_spec 0 i); [|lia]. rewrite Hpage. simpl. rewrite Himg, Hf. simpl.
    rewrite (lookup_path_cons _ _ Hne), (bool_decide_eq_true_2 _ Hthere). simpl.
    rewrite (lookup_path_cons _ _ Hne), Hold. simpl.
    rewrite <- app_assoc. reflexivity.
  - intros pdf_path' out_dir dpi quality' start end_ fmt' template' password
      grayscale' max_dim' w0 p n.
    apply run_keeps_entries.
Qed.

End Runs.



Lemma encrypted_document_is_refused_witness :
  (pdf_to_images (H := Sample.codec) ["in"; "locked.pdf"] None 150 90 None None "jpg" true
     "{stem}_p{page:03d}" None false None Sample.disk).1
  = Raise (PermissionError EncryptedNoPassword).
Proof.
  destruct (encrypted_document_is_refused (H := Sample.codec)
              ["in"; "locked.pdf"] None 150 90 None None "jpg" true
              "{stem}_p{page:03d}" None false None Sample.disk Sample.locked
              ["in"; "locked"] (<[ ["in"; "locked"] := Dir ]> (fs Sample.disk)))
    as [Hnone _].
  - split; [|split]; [vm_compute; set_solver | lia | lia].
  - reflexivity.
  - reflexivity.
  - vm_compute. reflexivity.
  - reflexivity.
  - rewrite Hnone; reflexivity.
Defined.

Lemma quality_checked_only_for_lossy_witness :
  (pdf_to_images (H := Sample.codec) ["in"; "doc.pdf"] None 150 150 None None "jpg" true
     "{stem}_p{page:03d}" None false None Sample.disk)
  = (Raise (ValueError QualityOutOfRange), Sample.disk)
  /\ pdf_to_images (H := Sample.codec) ["in"; "doc.pdf"] None 150 0 None None "PNG" true
       "{stem}_p{page:03d}" None false None Sample.disk
     = pdf_to_images (H := Sample.codec) ["in"; "doc.pdf"] None 150 90 None None "PNG" true
         "{stem}_p{page:03d}" None false None Sample.disk.
Proof.
  destruct (quality_checked_only_for_lossy (H := Sample.codec) ["in"; "doc.pdf"] None 150
              None None "jpg" true "{stem}_p{page:03d}" None false None) as [Hlossy _].
  destruct (quality_checked_only_for_lossy (H := Sample.codec) ["in"; "doc.pdf"] None 150
              None None "PNG" true "{stem}_p{page:03d}" None false None) as [_ Hpng].
  split.
  - apply (Hlossy (or_introl eq_refl) 150 Sample.disk). lia.
  - apply (Hpng eq_refl 0 90 Sample.disk).
Defined.

Lemma overwrite_policy_witness :
  let w := (pdf_to_images (H := Sample.codec) ["in"; "doc.pdf"] None 150 90 None None "png"
              true "{stem}_p{page:03d}" None false None Sample.disk).2 in
  fs (pdf_to_images (H := Sample.codec) ["in"; "doc.pdf"] None 150 20 None None "jpg"
        false "{stem}_p{page:03d}" None true None w).2 !! ["in"; "doc"; "doc_p001.png"]
  = Some (File (Blob [80; 4; 2; 1; 255; 0; 0; 255; 0; 0; 255; 0])).
Proof.
  intros w.
  destruct (overwrite_policy (H := Sample.codec) Sample.plain ["in"; "doc.pdf"] ["in"; "doc"]
              (150 # 72) "png" 90 "{stem}_p{page:03d}" false None 0 Sample.page_a
              Sample.rgba_image ["in"; "doc"; "doc_p001.png"] w)
    as (_ & _ & _ & Hkept).
  - lia.
  - reflexivity.
  - reflexivity.
  - reflexivity.
  - vm_compute. eauto.
  - apply Hkept. vm_compute. reflexivity.
Defined.



(** * Further properties *)

(** ** More on the range resolver *)

Lemma range_first_cases (start : option Z) :
  range_first start = match start with
                      | Some s => Z.max 0 (s - 1)
                      | None => 0
                      end.
Proof.
  destruct start as [s|]; [|reflexivity].
  unfold range_first, truthy, int_of. simpl.
  destruct (Z.eqb_spec s 0) as [->|]; reflexivity.
Qed.

Lemma range_last_cases (end_ : option Z) (n : Z) :
  range_last end_ n = match end_ with
                      | Some e => if e =? 0 then n - 1 else Z.min (n - 1) (e - 1)
                      | None => n - 1
                      end.
Proof.
  destruct end_ as [e|]; [|reflexivity].
  unfold range_last, truthy, int_of. simpl. destruct (e =? 0); reflexivity.
Qed.

(** X1: a start of 1, of 0 or below resolves like an absent start:
    whenever one of the two calls returns a pair, the other returns the
    same pair. *)
Theorem start_at_most_one_is_open (s : Z) (end_ : option Z) (n : Z) :
  s <= 1 ->
  forall r, _validate_range (Some s) end_ n = Ok r <-> _validate_range None end_ n = Ok r.
Proof.
  intros Hs r. unfold _validate_range. rewrite !range_first_cases.
  replace (Z.max 0 (s - 1)) with 0 by lia.
  destruct (0 >? range_last end_ n); split; intros E; congruence.
Qed.

Lemma start_at_most_one_is_open_witness :
  _validate_range (Some (-3)) (Some 2) 5 = Ok (0, 1).
Proof.
  apply (start_at_most_one_is_open (-3) (Some 2) 5); [lia|reflexivity].
Defined.

(** X2: the range is accepted exactly when the document has a page,
    the start does not lie beyond the last page, an end other than 0 is
    at least 1, and the start does not exceed such an end; in every
    other case the ValueError naming start, end and the page count is
    raised. *)
Theorem validate_range_accepts_iff (start end_ : option Z) (n : Z) :
  ((exists r, _validate_range start end_ n = Ok r) <->
     1 <= n
     /\ (forall s, start = Some s -> s <= n)
     /\ (forall e, end_ = Some e -> e <> 0 ->
           1 <= e /\ forall s, start = Some s -> s <= e))
  /\ ((forall r, _validate_range start end_ n <> Ok r) ->
      _validate_range start end_ n = Raise (ValueError (InvalidRange start end_ n))).
Proof.
  unfold _validate_range. rewrite range_first_cases, range_last_cases. split.
  - split.
    + intros [r E].
      destruct start as [s|], end_ as [e|]; try destruct (Z.eqb_spec e 0);
        match type of E with (if ?a >? ?b then _ else _) = _ =>
          destruct (Z.gtb_spec a b); [discriminate|] end;
        (split; [lia|]); (split; [intros ? [= <-]; lia|]);
        intros ? [= <-] ?; try lia; try contradiction;
        (split; [lia|]); intros ? [= <-] || intros ? [=]; lia.
    + intros (Hn & Hs & He).
      destruct start as [s|], end_ as [e|]; try destruct (Z.eqb_spec e 0);
        try specialize (Hs _ eq_refl);
        try (destruct (He _ eq_refl ltac:(assumption)) as [He1 He2]);
        try specialize (He2 _ eq_refl);
        match goal with |- exists _, (if ?a >? ?b then _ else _) = _ =>
          destruct (Z.gtb_spec a b); [lia|eauto] end.
  - intros Hno.
    match goal with |- (if ?a >? ?b then _ else _) = _ =>
      destruct (a >? b); [reflexivity|] end.
    exfalso. eapply Hno. reflexivity.
Qed.

Lemma validate_range_accepts_iff_witness :
  exists r, _validate_range (Some 2) (Some 3) 5 = Ok r.
Proof.
  apply (validate_range_accepts_iff (Some 2) (Some 3) 5).
  split; [lia|]. split.
  - intros s [= <-]. lia.
  - intros e [= <-] _. split; [lia|]. intros s [= <-]. lia.
Defined.

(** X3: a request inside the document, [1 <= start <= end <= n], is
    resolved without clamping to [(start - 1, end - 1)], and the loop
    built from that pair visits exactly [end - start + 1] indices: the
    0-based indices of the pages [start] to [end]. *)
Theorem in_range_request_is_exact (s e n : Z) :
  1 <= s -> s <= e -> e <= n ->
  _validate_range (Some s) (Some e) n = Ok (s - 1, e - 1)
  /\ length (seqZ (s - 1) ((e - 1) + 1 - (s - 1))) = Z.to_nat (e - s + 1)
  /\ forall i, i ∈ seqZ (s - 1) ((e - 1) + 1 - (s - 1)) <-> s <= i + 1 <= e.
Proof.
  intros Hs Hse Hen. split; [|split].
  - unfold _validate_range. rewrite range_first_cases, range_last_cases.
    destruct (Z.eqb_spec e 0); [lia|].
    replace (Z.max 0 (s - 1)) with (s - 1) by lia.
    replace (Z.min (n - 1) (e - 1)) with (e - 1) by lia.
    destruct (Z.gtb_spec (s - 1) (e - 1)); [lia|reflexivity].
  - rewrite length_seqZ. f_equal. lia.
  - intros i. rewrite elem_of_seqZ. lia.
Qed.

Lemma in_range_request_is_exact_witness :
  _validate_range (Some 2) (Some 4) 5 = Ok (1, 3).
Proof.
  apply (in_range_request_is_exact 2 4 5); lia.
Defined.

Section MoreTransforms.
Context `{Codec}.

Lemma flatten_header (img out : Image) :
  _flatten_to_rgb img = Ok out ->
  mode out = MRGB /\ width out = width img /\ height out = height img.
Proof.
  intros E. destruct (decide (mode img = MRGBA)) as [Ha|Ha].
  - destruct (flatten_rgba img Ha) as [_ E']. rewrite E' in E. injection E as <-. done.
  - unfold _flatten_to_rgb in E. rewrite (bool_decide_eq_false_2 _ Ha) in E.
    case_bool_decide as Hr; injection E as <-; [done|].
    destruct (decide (mode img = MRGB)); [done|contradiction].
Qed.

Lemma lossy_format_flag (fmt : string) :
  fmt = "jpg" \/ fmt = "webp" ->
  bool_decide (fmt ∈ ({["jpg"; "webp"]} : gset string)) = true.
Proof.
  intros Hfmt. apply bool_decide_eq_true_2.
  apply elem_of_union. destruct Hfmt as [-> | ->]; [left|right]; by apply elem_of_singleton.
Qed.

Lemma png_format_flag : bool_decide (("png" : string) ∈ ({["jpg"; "webp"]} : gset string)) = false.
Proof.
  apply bool_decide_eq_false_2. intros Hin.
  apply elem_of_union in Hin as [Hin|Hin]; apply elem_of_singleton in Hin; discriminate Hin.
Qed.

Lemma transform_lossy (fmt : string) (grayscale : bool) (max_dim : option Z) (img : Image) :
  fmt = "jpg" \/ fmt = "webp" ->
  exists flat,
    _flatten_to_rgb img = Ok flat
    /\ transform fmt grayscale max_dim img
       = _maybe_downscale (_maybe_grayscale flat grayscale) max_dim.
Proof.
  intros Hfmt. destruct (flatten_returns_rgb img) as (flat & E & _).
  exists flat. split; [exact E|].
  unfold transform. rewrite (lossy_format_flag _ Hfmt), E. reflexivity.
Qed.

Lemma transform_png (grayscale : bool) (max_dim : option Z) (img : Image) :
  forall fmt, fmt = "png" ->
  transform fmt grayscale max_dim img = _maybe_downscale (_maybe_grayscale img grayscale) max_dim.
Proof.
  intros fmt Hfmt. unfold transform.
  assert (E : bool_decide (fmt ∈ ({["jpg"; "webp"]} : gset string)) = false).
  { apply bool_decide_eq_false_2. rewrite Hfmt. intros Hin.
    apply elem_of_union in Hin as [Hin|Hin]; apply elem_of_singleton in Hin;
      discriminate Hin. }
  rewrite E. reflexivity.
Qed.

(** X4: whatever the mode of the rendered image, what the chain hands
    to the JPEG or WEBP encoder has no alpha channel: its mode is L when
    grayscale is on and RGB otherwise. *)
Theorem lossy_output_is_opaque (fmt : string) (grayscale : bool) (max_dim : option Z)
    (img out : Image) :
  fmt = "jpg" \/ fmt = "webp" ->
  transform fmt grayscale max_dim img = Ok out ->
  mode out = (if grayscale then ML else MRGB) /\ has_alpha (mode out) = false.
Proof.
  intros Hfmt E.
  destruct (transform_lossy fmt grayscale max_dim img Hfmt) as (flat & Ef & Et).
  rewrite Et in E. apply downscale_mode in E.
  destruct (flatten_header _ _ Ef) as (Hm & _).
  rewrite E. destruct grayscale; simpl; [done|]. rewrite Hm. done.
Qed.

(** X5: for png the flatten step is skipped, so without grayscale the
    mode of the rendered image, alpha included, is the mode that is
    saved; with grayscale the saved mode is L, so transparency is lost
    for png too. *)
Theorem png_keeps_mode_unless_grayscale (grayscale : bool) (max_dim : option Z)
    (img out : Image) :
  transform "png" grayscale max_dim img = Ok out ->
  mode out = (if grayscale then ML else mode img).
Proof.
  rewrite (transform_png grayscale max_dim img "png" eq_refl). intros E.
  apply downscale_mode in E. rewrite E. destruct grayscale; reflexivity.
Qed.

Lemma grayscale_size (img : Image) (grayscale : bool) :
  width (_maybe_grayscale img grayscale) = width img
  /\ height (_maybe_grayscale img grayscale) = height img.
Proof. destruct grayscale; done. Qed.

Lemma transform_before_downscale (fmt : string) (grayscale : bool) (max_dim : option Z)
    (img : Image) :
  exists mid,
    transform fmt grayscale max_dim img = _maybe_downscale mid max_dim
    /\ width mid = width img /\ height mid = height img.
Proof.
  unfold transform. destruct (bool_decide _).
  - destruct (flatten_returns_rgb img) as (flat & E & _).
    destruct (flatten_header _ _ E) as (_ & Hw & Hh). rewrite E. simpl.
    eexists. split; [reflexivity|].
    destruct (grayscale_size flat grayscale) as [-> ->]. done.
  - simpl. eexists. split; [reflexivity|]. apply grayscale_size.
Qed.

Lemma downscale_off (img : Image) (max_dim : option Z) :
  max_dim = None \/ max_dim = Some 0 -> _maybe_downscale img max_dim = Ok img.
Proof. intros [-> | ->]; reflexivity. Qed.

(** X6: with no cap, and also with a cap of 0 (which the code treats as
    no cap), the chain always returns and keeps the size of the
    rendered image, for every format and either grayscale setting. *)
Theorem uncapped_transform_keeps_size (fmt : string) (grayscale : bool)
    (max_dim : option Z) (img : Image) :
  max_dim = None \/ max_dim = Some 0 ->
  exists out, transform fmt grayscale max_dim img = Ok out
              /\ width out = width img /\ height out = height img.
Proof.
  intros Hoff.
  destruct (transform_before_downscale fmt grayscale max_dim img) as (mid & E & Hw & Hh).
  exists mid. rewrite E, (downscale_off mid max_dim Hoff). done.
Qed.

Lemma downscale_fits (img : Image) (m : Z) :
  0 < m -> 0 < width img -> 0 < height img ->
  exists out, _maybe_downscale img (Some m) = Ok out
    /\ 1 <= width out <= Z.min m (width img)
    /\ 1 <= height out <= Z.min m (height img)
    /\ Z.max (width out) (height out) = Z.min m (Z.max (width img) (height img)).
Proof.
  intros Hm Hw Hh. unfold _maybe_downscale, truthy, int_of. simpl.
  destruct (Z.eqb_spec m 0); [lia|]. simpl.
  destruct (Z.gtb_spec (Z.max (width img) (height img)) m) as [Hbig|Hfit].
  - destruct (thumbnail_box img m) as (w' & h' & E & Hw' & Hh' & Hmax & Hp & Hl); [lia..|].
    eexists. split; [exact E|]. simpl.
    destruct (Z.le_gt_cases (width img) (height img)) as [Hc|Hc].
    + destruct (Hp Hc) as [-> Habs]. repeat split; try lia; nia.
    + destruct (Hl Hc) as [-> Habs]. repeat split; try lia; nia.
  - exists img. split; [reflexivity|]. lia.
Qed.

(** X7: with a positive cap and a rendered image of positive size, the
    chain always returns, the image it returns fits in the square of
    side [max_dim], neither side is larger than it was rendered, and
    neither side is below one pixel. *)
Theorem capped_transform_fits (fmt : string) (grayscale : bool) (m : Z) (img : Image) :
  0 < m -> 0 < width img -> 0 < height img ->
  exists out, transform fmt grayscale (Some m) img = Ok out
    /\ 1 <= width out <= Z.min m (width img)
    /\ 1 <= height out <= Z.min m (height img).
Proof.
  intros Hm Hw Hh.
  destruct (transform_before_downscale fmt grayscale (Some m) img) as (mid & E & Ew & Eh).
  destruct (downscale_fits mid m Hm) as (out & Eo & Hwo & Hho & _); [lia..|].
  exists out. rewrite E. split; [exact Eo|]. rewrite <- Ew, <- Eh. done.
Qed.

(** X8: downscaling is idempotent on images of positive size: applying
    the same positive cap to the result changes nothing. *)
Theorem downscale_twice_is_once (img : Image) (m : Z) :
  0 < m -> 0 < width img -> 0 < height img ->
  exists out, _maybe_downscale img (Some m) = Ok out
              /\ _maybe_downscale out (Some m) = Ok out.
Proof.
  intros Hm Hw Hh.
  destruct (downscale_fits img m Hm Hw Hh) as (out & E & Hwo & Hho & Hmax).
  exists out. split; [exact E|].
  unfold _maybe_downscale, truthy, int_of. simpl.
  destruct (Z.eqb_spec m 0); [lia|]. simpl.
  destruct (Z.gtb_spec (Z.max (width out) (height out)) m); [lia|reflexivity].
Qed.

End MoreTransforms.

Lemma lossy_output_is_opaque_witness :
  exists out, transform (H := Sample.codec) "webp" false (Some 1) Sample.rgba_image = Ok out
              /\ mode out = MRGB.
Proof.
  eexists. split; [vm_compute; reflexivity|].
  apply (lossy_output_is_opaque (H := Sample.codec) "webp" false (Some 1) Sample.rgba_image
           _ (or_intror eq_refl)).
  vm_compute. reflexivity.
Defined.

Lemma png_keeps_mode_unless_grayscale_witness :
  exists out, transform (H := Sample.codec) "png" false (Some 1) Sample.rgba_image = Ok out
              /\ mode out = MRGBA.
Proof.
  eexists. split; [vm_compute; reflexivity|].
  apply (png_keeps_mode_unless_grayscale (H := Sample.codec) false (Some 1)
           Sample.rgba_image).
  vm_compute. reflexivity.
Defined.

Lemma uncapped_transform_keeps_size_witness :
  exists out, transform (H := Sample.codec) "jpg" true (Some 0) Sample.rgba_image = Ok out
              /\ width out = 2 /\ height out = 1.
Proof.
  apply (uncapped_transform_keeps_size (H := Sample.codec) "jpg" true (Some 0)
           Sample.rgba_image). right. reflexivity.
Defined.

Lemma capped_transform_fits_witness :
  exists out, transform (H := Sample.codec) "png" false (Some 3) Sample.wide_image = Ok out
              /\ 1 <= width out <= 3 /\ 1 <= height out <= 2.
Proof.
  apply (capped_transform_fits (H := Sample.codec) "png" false 3 Sample.wide_image);
    simpl; lia.
Defined.

Lemma downscale_twice_is_once_witness :
  exists out, _maybe_downscale (H := Sample.codec) Sample.wide_image (Some 3) = Ok out
              /\ _maybe_downscale (H := Sample.codec) out (Some 3) = Ok out.
Proof.
  apply (downscale_twice_is_once (H := Sample.codec) Sample.wide_image 3); simpl; lia.
Defined.

(** ** What a step appends to the log *)

Section Emits.
Context (P : event -> Prop).

Lemma emits_ret {A} (a : A) : emits P (mret a : IO A).
Proof. intros w. exists []. rewrite app_nil_r. split; [reflexivity|constructor]. Qed.

Lemma emits_raise {A} (e : exn) : emits P (raise e : IO A).
Proof. intros w. exists []. rewrite app_nil_r. split; [reflexivity|constructor]. Qed.

Lemma emits_lift {A} (r : result A) : emits P (lift r).
Proof. intros w. exists []. rewrite app_nil_r. split; [reflexivity|constructor]. Qed.

Lemma emits_path_exists (p : path) : emits P (path_exists p).
Proof. intros w. exists []. rewrite app_nil_r. split; [reflexivity|constructor]. Qed.

Lemma emits_log (ev : event) : P ev -> emits P (log ev).
Proof. intros Hev w. exists [ev]. split; [reflexivity|]. repeat constructor. exact Hev. Qed.

Lemma emits_bind {A B} (c : IO A) (k : A -> IO B) :
  emits P c -> (forall a, emits P (k a)) -> emits P (c ≫= k).
Proof.
  intros Hc Hk w. unfold mbind, IO_bind. destruct (Hc w) as (t & Et & Ht).
  destruct (c w) as [[a|e] w1]; simpl in *; [|eauto].
  destruct (Hk a w1) as (t' & Et' & Ht'). exists (t ++ t').
  rewrite Et', Et, <- app_assoc. split; [reflexivity|]. apply Forall_app. done.
Qed.

Lemma emits_for_each {A} (xs : list A) (body : A -> IO unit) :
  (forall x, emits P (body x)) -> emits P (for_each xs body).
Proof.
  intros Hb. induction xs as [|x xs IH]; simpl.
  - apply emits_ret.
  - apply emits_bind; [apply Hb|intros _; exact IH].
Qed.

End Emits.

Ltac emits_step :=
  lazymatch goal with
  | |- emits _ (mret _) => apply emits_ret
  | |- emits _ (raise _) => apply emits_raise
  | |- emits _ (lift _) => apply emits_lift
  | |- emits _ (path_exists _) => apply emits_path_exists
  | |- emits _ (log _) => apply emits_log; exact I
  | |- emits _ (for_each _ _) => apply emits_for_each; intros ?
  | |- emits _ (_ ≫= _) => apply emits_bind; [|intros ?]
  | |- emits _ (if ?b then _ else _) => destruct b
  | |- emits _ (match ?x with Some _ => _ | None => _ end) => destruct x
  end.

Section MoreRuns.
Context `{Codec}.

Lemma save_emits img f params : emits document_event (save img f params).
Proof.
  intros w. unfold save. simpl. exists [EvSave f].
  destruct (lookup_path (fs w) f) as [[|c]|]; simpl; (split; [reflexivity|repeat constructor]).
Qed.

Lemma convert_document_emits doc pdf_path out zoom fmt quality start end_ overwrite
    filename_template password grayscale max_dim :
  emits document_event
    (convert_document doc pdf_path out zoom fmt quality start end_ overwrite
       filename_template password grayscale max_dim).
Proof.
  unfold convert_document, doc_authenticate, export_page, doc_getitem, render.
  emits_step.
  - repeat emits_step.
  - repeat emits_step.
    match goal with p : (Z * Z)%type |- _ => destruct p as [first last] end.
    repeat emits_step. apply save_emits.
Qed.

(** X9: the format is checked first and the resolution second, before
    anything else is looked at: an unknown format raises the ValueError
    for an unsupported format whatever the other arguments are, a known
    format with a non-positive dpi raises the dpi ValueError, and in
    both cases the file system and the log are untouched. *)
Theorem format_then_dpi_checked_first pdf_path out_dir dpi quality start end_ fmt overwrite
    filename_template password grayscale max_dim w :
  (normalize_format fmt ∉ VALID_FORMATS ->
   exists name,
     pdf_to_images pdf_path out_dir dpi quality start end_ fmt overwrite
       filename_template password grayscale max_dim w
     = (Raise (ValueError (UnsupportedFormat name)), w))
  /\ (normalize_format fmt ∈ VALID_FORMATS -> dpi <= 0 ->
      pdf_to_images pdf_path out_dir dpi quality start end_ fmt overwrite
        filename_template password grayscale max_dim w
      = (Raise (ValueError DpiNotPositive), w)).
Proof.
  unfold pdf_to_images. cbv zeta. split.
  - intros Hv. rewrite (bool_decide_eq_false_2 _ Hv). eexists. reflexivity.
  - intros Hv Hd. rewrite (bool_decide_eq_true_2 _ Hv). simpl.
    destruct (Z.leb_spec dpi 0); [reflexivity|lia].
Qed.

(** X10: when the request passes the checks but the input path is not a
    regular file (missing, or a directory), the run raises
    FileNotFoundError for that path and leaves the world untouched: no
    output directory is made and nothing is opened. *)
Theorem missing_input_makes_no_directory pdf_path out_dir dpi quality start end_ fmt
    overwrite filename_template password grayscale max_dim w :
  request_ok fmt dpi quality ->
  (forall c, lookup_path (fs w) pdf_path <> Some (File c)) ->
  pdf_to_images pdf_path out_dir dpi quality start end_ fmt overwrite
    filename_template password grayscale max_dim w
  = (Raise (FileNotFoundError pdf_path), w).
Proof.
  intros Hok Hnone. destruct (valid_format_passes _ _ _ Hok) as (E1 & E2 & E3).
  unfold pdf_to_images. cbv zeta. rewrite E1, E2, E3.
  unfold mbind, IO_bind, is_file.
  destruct (lookup_path (fs w) pdf_path) as [[|c]|] eqn:E; try reflexivity.
  exfalso. apply (Hnone c). reflexivity.
Qed.

Lemma mkdir_from_blocked rest : forall pre m c,
  rest <> [] -> m !! (pre ++ rest) = Some (File c) ->
  exists e, mkdir_from pre rest m = Raise e
            /\ (e = FileExistsError (pre ++ rest) \/ exists q, e = NotADirectoryError q).
Proof.
  induction rest as [|a rest IH]; intros pre m c Hne Hfile; [done|]. simpl.
  destruct rest as [|b rest].
  - rewrite Hfile. eauto.
  - assert (Hlen : pre ++ [a] <> pre ++ a :: b :: rest).
    { intros E. apply (f_equal length) in E. rewrite !length_app in E. simpl in E. lia. }
    replace (pre ++ a :: b :: rest) with ((pre ++ [a]) ++ b :: rest) in *
      by (by rewrite <- app_assoc).
    destruct (m !! (pre ++ [a])) as [[|f]|] eqn:Hp.
    + destruct (IH (pre ++ [a]) m c ltac:(done) Hfile) as (e & E & He).
      exists e. split; [exact E|]. destruct He as [->|?]; eauto.
    + eauto.
    + destruct (IH (pre ++ [a]) (<[pre ++ [a] := Dir]> m) c ltac:(done)) as (e & E & He).
      { rewrite lookup_insert_ne; [exact Hfile|]. intros E.
        apply (f_equal length) in E. rewrite !length_app in E. simpl in E. lia. }
      exists e. split; [exact E|]. destruct He as [->|?]; eauto.
Qed.

(** X11: a PDF whose name has no suffix cannot be converted with the
    default output directory: the directory would have the path of the
    PDF itself, so creating it raises (FileExistsError for that path when
    its parents are directories) and the document is never opened. *)
Theorem suffixless_pdf_needs_out_dir pdf_path dpi quality start end_ fmt overwrite
    filename_template password grayscale max_dim w c :
  request_ok fmt dpi quality ->
  pdf_path <> [] ->
  fs w !! pdf_path = Some (File c) ->
  name pdf_path <> "" ->
  stem pdf_path = name pdf_path ->
  exists e,
    pdf_to_images pdf_path None dpi quality start end_ fmt overwrite
      filename_template password grayscale max_dim w
    = (Raise e, {| fs := fs w; trace := trace w ++ [EvMkdir pdf_path] |})
    /\ (e = FileExistsError pdf_path \/ exists q, e = NotADirectoryError q).
Proof.
  intros Hok Hne Hfile Hname Hstem.
  destruct (valid_format_passes _ _ _ Hok) as (E1 & E2 & E3).
  assert (Hout : outdir_of pdf_path None = Ok pdf_path).
  { unfold outdir_of, with_suffix_empty.
    destruct (String.eqb_spec (name pdf_path) ""); [contradiction|].
    rewrite Hstem. unfold name. f_equal. symmetry. by apply app_removelast_last. }
  destruct (mkdir_from_blocked pdf_path [] (fs w) c Hne Hfile) as (e & Emk & He).
  exists e. split; [|exact He].
  unfold pdf_to_images. cbv zeta. rewrite E1, E2, E3.
  unfold mbind, IO_bind, is_file at 1. rewrite (lookup_path_cons _ _ Hne), Hfile. simpl.
  unfold _ensure_outdir, mbind, IO_bind, lift. rewrite Hout.
  unfold mkdir_parents. simpl. rewrite Emk. reflexivity.
Qed.

End MoreRuns.

Lemma format_then_dpi_checked_first_witness :
  exists name,
    pdf_to_images (H := Sample.codec) ["in"; "doc.pdf"] None 0 500 None None "GIF" true
      "{stem}_p{page:03d}" None false None Sample.disk
    = (Raise (ValueError (UnsupportedFormat name)), Sample.disk).
Proof.
  destruct (format_then_dpi_checked_first (H := Sample.codec) ["in"; "doc.pdf"] None 0 500
              None None "GIF" true "{stem}_p{page:03d}" None false None Sample.disk)
    as [Hfmt _].
  apply Hfmt. vm_compute. intros Hin. discriminate Hin.
Defined.

Lemma missing_input_makes_no_directory_witness :
  pdf_to_images (H := Sample.codec) ["in"; "absent.pdf"] None 150 90 None None "jpg" true
    "{stem}_p{page:03d}" None false None Sample.disk
  = (Raise (FileNotFoundError ["in"; "absent.pdf"]), Sample.disk).
Proof.
  apply (missing_input_makes_no_directory (H := Sample.codec)).
  - split; [|split]; [vm_compute; set_solver | lia | lia].
  - intros c. vm_compute. discriminate.
Defined.

Lemma suffixless_pdf_needs_out_dir_witness :
  exists e,
    (pdf_to_images (H := Sample.codec) ["scan"] None 150 90 None None "png" true
       "{stem}_p{page:03d}" None false None
       {| fs := {[ ["scan"] := File (PdfFile Sample.plain) ]}; trace := [] |}).1 = Raise e.
Proof.
  destruct (suffixless_pdf_needs_out_dir (H := Sample.codec) ["scan"] 150 90 None None "png"
              true "{stem}_p{page:03d}" None false None
              {| fs := {[ ["scan"] := File (PdfFile Sample.plain) ]}; trace := [] |}
              (PdfFile Sample.plain)) as (e & E & _).
  - split; [|split]; [vm_compute; set_solver | lia | lia].
  - discriminate.
  - reflexivity.
  - discriminate.
  - reflexivity.
  - exists e. rewrite E. reflexivity.
Defined.

Section MoreRuns2.
Context `{Codec}.

(** X12: whenever the run gets to open the document, the handle is
    released on every way out, returning or raising: the log grows by
    the mkdir, one open, the calls made on the open document, and one
    close, which comes last. *)
Theorem handle_closed_on_every_exit pdf_path out_dir dpi quality start end_ fmt overwrite
    filename_template password grayscale max_dim w doc out m :
  request_ok fmt dpi quality ->
  lookup_path (fs w) pdf_path = Some (File (PdfFile doc)) ->
  outdir_of pdf_path out_dir = Ok out ->
  mkdir_from [] out (fs w) = Ok m ->
  exists mid,
    trace (pdf_to_images pdf_path out_dir dpi quality start end_ fmt overwrite
             filename_template password grayscale max_dim w).2
    = trace w ++ EvMkdir out :: EvOpen pdf_path :: mid ++ [EvClose]
    /\ Forall document_event mid.
Proof.
  intros Hok Hfile Hout Hmk.
  rewrite (run_reaches_document _ _ _ _ _ _ _ _ _ _ _ _ _ _ _ _ Hok Hfile Hout Hmk).
  cbv zeta. simpl.
  destruct (convert_document_emits doc pdf_path out (dpi # 72) (normalize_format fmt)
              quality start end_ overwrite filename_template password grayscale max_dim
              (opened w m out pdf_path)) as (mid & Et & Hmid).
  exists mid. rewrite Et. simpl. rewrite <- !app_assoc. done.
Qed.

(** X13: a run that returns took every step before the pages: the
    request passed the checks, the input was a readable document, and
    the path returned is the resolved output directory, which is a
    directory when the run ends. *)
Theorem success_returns_outdir pdf_path out_dir dpi quality start end_ fmt overwrite
    filename_template password grayscale max_dim w d w' :
  pdf_to_images pdf_path out_dir dpi quality start end_ fmt overwrite
    filename_template password grayscale max_dim w = (Ok d, w') ->
  request_ok fmt dpi quality
  /\ (exists doc, lookup_path (fs w) pdf_path = Some (File (PdfFile doc)))
  /\ outdir_of pdf_path out_dir = Ok d
  /\ lookup_path (fs w') d = Some Dir.
Proof.
  intros E.
  destruct (run_stops_early_or_reaches_document pdf_path out_dir dpi quality start end_
              fmt overwrite filename_template password grayscale max_dim w)
    as [(e0 & w0 & E0 & _)|(doc & out & m & Hok & Hfile & Hout & Hmk)].
  { rewrite E in E0. discriminate. }
  rewrite (run_reaches_document _ _ _ _ _ _ _ _ _ _ _ _ _ _ _ _ Hok Hfile Hout Hmk) in E.
  cbv zeta in E.
  pose proof (convert_document_keeps dirs_kept doc pdf_path out (dpi # 72)
                (normalize_format fmt) quality start end_ overwrite filename_template
                password grayscale max_dim (export_page_keeps_dirs _ _ _ _ _ _ _ _ _ _)
                (opened w m out pdf_path)) as Hkept.
  destruct (convert_document _ _ _ _ _ _ _ _ _ _ _ _ _ _) as [[[]|e1] w1]; simpl in E;
    [|discriminate].
  injection E as <- <-. split; [exact Hok|]. split; [eauto|]. split; [exact Hout|].
  simpl. apply Hkept. simpl. apply (mkdir_from_makes _ _ _ _ Hmk). reflexivity.
Qed.

Lemma ensure_outdir_keeps_entries pdf_path out_dir :
  keeps entries_kept (_ensure_outdir pdf_path out_dir).
Proof. unfold _ensure_outdir. keeps_steps. apply mkdir_parents_keeps_entries. Qed.

Lemma unencrypted_ignores_password doc pdf_path out zoom fmt quality start end_ overwrite
    filename_template pw1 pw2 grayscale max_dim :
  needs_pass doc = false ->
  convert_document doc pdf_path out zoom fmt quality start end_ overwrite
    filename_template pw1 grayscale max_dim
  = convert_document doc pdf_path out zoom fmt quality start end_ overwrite
      filename_template pw2 grayscale max_dim.
Proof. intros Hn. unfold convert_document. rewrite Hn. reflexivity. Qed.

(** X14: for a document that is not encrypted the password is never
    looked at: two runs that differ only in the password give the same
    result, the same files and the same log (no authenticate call). *)
Theorem password_ignored_when_not_encrypted pdf_path out_dir dpi quality start end_ fmt
    overwrite filename_template pw1 pw2 grayscale max_dim w doc :
  lookup_path (fs w) pdf_path = Some (File (PdfFile doc)) ->
  needs_pass doc = false ->
  pdf_to_images pdf_path out_dir dpi quality start end_ fmt overwrite
    filename_template pw1 grayscale max_dim w
  = pdf_to_images pdf_path out_dir dpi quality start end_ fmt overwrite
      filename_template pw2 grayscale max_dim w.
Proof.
  intros Hfile Hn. unfold pdf_to_images. cbv zeta.
  destruct (negb _); [reflexivity|]. destruct (dpi <=? 0); [reflexivity|].
  destruct (_ && _); [reflexivity|].
  unfold mbind, IO_bind, is_file. rewrite Hfile. simpl.
  pose proof (ensure_outdir_keeps_entries pdf_path out_dir w) as Hkept.
  destruct (_ensure_outdir pdf_path out_dir w) as [[out|e] w1]; [|reflexivity].
  simpl in Hkept.
  assert (Hfile1 : lookup_path (fs w1) pdf_path = Some (File (PdfFile doc))).
  { eapply lookup_path_keeps; [|exact Hfile]. exact Hkept. }
  unfold with_open, fitz_open. simpl. rewrite Hfile1.
  rewrite (unencrypted_ignores_password doc pdf_path out (dpi # 72) (normalize_format fmt)
             quality start end_ overwrite filename_template pw1 pw2 grayscale max_dim Hn).
  reflexivity.
Qed.

(** X15: an encrypted document opened with a password it accepts is
    converted exactly like the same document without encryption: the
    only difference is the one authenticate call at the head of the
    log. *)
Theorem accepted_password_unlocks doc pdf_path out zoom fmt quality start end_ overwrite
    filename_template pw grayscale max_dim w :
  needs_pass doc = true -> pw <> "" -> authenticate doc pw = true ->
  convert_document doc pdf_path out zoom fmt quality start end_ overwrite
    filename_template (Some pw) grayscale max_dim w
  = convert_document (unlocked doc) pdf_path out zoom fmt quality start end_ overwrite
      filename_template None grayscale max_dim
      {| fs := fs w; trace := trace w ++ [EvAuthenticate pw] |}.
Proof.
  intros Hn Hpw Hok. unfold convert_document. rewrite Hn. simpl.
  destruct (String.eqb_spec pw ""); [contradiction|]. simpl.
  unfold doc_authenticate, mbind, IO_bind, log, mret, IO_ret. simpl. rewrite Hok. simpl.
  reflexivity.
Qed.

End MoreRuns2.

Lemma handle_closed_on_every_exit_witness :
  exists mid,
    trace (pdf_to_images (H := Sample.codec) ["in"; "locked.pdf"] None 150 90 None None "jpg"
             true "{stem}_p{page:03d}" (Some "guess") false None Sample.disk).2
    = EvMkdir ["in"; "locked"] :: EvOpen ["in"; "locked.pdf"] :: mid ++ [EvClose].
Proof.
  destruct (handle_closed_on_every_exit (H := Sample.codec) ["in"; "locked.pdf"] None 150 90
              None None "jpg" true "{stem}_p{page:03d}" (Some "guess") false None
              Sample.disk Sample.locked ["in"; "locked"]
              (<[ ["in"; "locked"] := Dir ]> (fs Sample.disk))) as (mid & E & _).
  - split; [|split]; [vm_compute; set_solver | lia | lia].
  - reflexivity.
  - reflexivity.
  - vm_compute. reflexivity.
  - exists mid. exact E.
Defined.

Lemma success_returns_outdir_witness :
  outdir_of ["in"; "doc.pdf"] None = Ok ["in"; "doc"].
Proof.
  eapply (success_returns_outdir (H := Sample.codec) ["in"; "doc.pdf"] None 150 90 None None
            "jpg" true "{stem}_p{page:03d}" None false None Sample.disk).
  vm_compute. reflexivity.
Defined.

Lemma password_ignored_when_not_encrypted_witness :
  pdf_to_images (H := Sample.codec) ["in"; "doc.pdf"] None 150 90 None None "jpg" true
    "{stem}_p{page:03d}" (Some "anything") false None Sample.disk
  = pdf_to_images (H := Sample.codec) ["in"; "doc.pdf"] None 150 90 None None "jpg" true
      "{stem}_p{page:03d}" None false None Sample.disk.
Proof.
  apply (password_ignored_when_not_encrypted (H := Sample.codec) ["in"; "doc.pdf"] None 150
           90 None None "jpg" true "{stem}_p{page:03d}" (Some "anything") None false None
           Sample.disk Sample.plain); reflexivity.
Defined.

Lemma accepted_password_unlocks_witness :
  (convert_document (H := Sample.codec) Sample.locked ["in"; "locked.pdf"] ["out"] (150 # 72)
     "png" 90 None None true "{stem}" (Some "s3cret") false None Sample.disk).1
  = Ok tt.
Proof.
  rewrite (accepted_password_unlocks (H := Sample.codec) Sample.locked ["in"; "locked.pdf"]
             ["out"] (150 # 72) "png" 90 None None true "{stem}" "s3cret" false None
             Sample.disk eq_refl ltac:(discriminate) eq_refl).
  vm_compute. reflexivity.
Defined.

#[local] Instance files_stay_refl : Reflexive files_stay.
Proof. intros m p. split; eauto. Qed.

#[local] Instance files_stay_trans : Transitive files_stay.
Proof.
  intros a b c Hab Hbc p. destruct (Hab p) as [H1 H2], (Hbc p) as [H3 H4]. split.
  - auto.
  - intros x Hx. destruct (H2 x Hx) as [y Hy]. eauto.
Qed.

Lemma validate_range_bounds start end_ n first last :
  _validate_range start end_ n = Ok (first, last) ->
  0 <= first /\ first <= last /\ last <= n - 1.
Proof.
  unfold _validate_range.
  destruct (Z.gtb_spec (range_first start) (range_last end_ n)); [discriminate|].
  intros [= <- <-].
  assert (0 <= range_first start).
  { unfold range_first. destruct (negb _); lia. }
  assert (range_last end_ n <= n - 1).
  { unfold range_last. destruct (negb _); lia. }
  lia.
Qed.

Section Pages.
Context `{Codec}.

Lemma thumbnail_raises_kind img x y e :
  thumbnail img x y = Raise e -> e = ZeroDivisionError \/ e = ValueError BadImageSize.
Proof.
  unfold thumbnail, preserve_aspect_ratio, resize.
  repeat (match goal with
          | |- context [if ?b then _ else _] => destruct b
          | |- context [let '(_, _) := ?p in _] => destruct p
          end; simpl);
    try discriminate; intros [= <-]; auto.
Qed.

Lemma transform_raises_kind fmt grayscale max_dim img e :
  transform fmt grayscale max_dim img = Raise e ->
  e = ZeroDivisionError \/ e = ValueError BadImageSize.
Proof.
  unfold transform. destruct (bool_decide _).
  - destruct (flatten_returns_rgb img) as (flat & E & _). rewrite E. simpl.
    unfold _maybe_downscale. destruct (_ && _); [apply thumbnail_raises_kind|discriminate].
  - simpl. unfold _maybe_downscale.
    destruct (_ && _); [apply thumbnail_raises_kind|discriminate].
Qed.

Lemma doc_getitem_in_range doc i :
  0 <= i < doc_len doc -> exists page, pages doc !! Z.to_nat i = Some page.
Proof.
  intros Hi. unfold doc_len in Hi.
  destruct (pages doc !! Z.to_nat i) as [page|] eqn:E; [eauto|].
  apply lookup_ge_None in E. lia.
Qed.

(** What one pass of the loop body does, for a page of the document. *)
Lemma export_page_cases doc pdf_path out zoom fmt quality overwrite filename_template
    grayscale max_dim i w :
  0 <= i < doc_len doc ->
  let w1 := {| fs := fs w; trace := trace w ++ [EvRender i] |} in
  let r := export_page doc pdf_path out zoom fmt quality overwrite filename_template
             grayscale max_dim i w in
  (exists e, r = (Raise e, w1)
             /\ (e = ZeroDivisionError \/ e = ValueError BadImageSize
                 \/ e = FormatError filename_template))
  \/ (exists f, out_file_of pdf_path out filename_template fmt i = Ok f
        /\ (r = (Ok tt, w1) /\ is_Some (fs w !! f) /\ overwrite = false
            \/ r = (Raise (IsADirectoryError f),
                    {| fs := fs w; trace := trace w ++ [EvRender i; EvSave f] |})
            \/ exists img,
                 r = (Ok tt, {| fs := <[f := File (Blob (encode (save_kwargs fmt quality) img))]>
                                       (fs w);
                                trace := trace w ++ [EvRender i; EvSave f] |}))).
Proof.
  intros Hi. cbv zeta. destruct (doc_getitem_in_range doc i Hi) as [page Hpage].
  unfold export_page, doc_getitem, render, mbind, IO_bind, lift, log, mret, IO_ret,
    path_exists, save.
  destruct (Z.leb_spec 0 i); [|lia]. rewrite Hpage. simpl.
  destruct (transform _ _ _ _) as [img|e] eqn:Et.
  2: { left. exists e. split; [reflexivity|].
       destruct (transform_raises_kind _ _ _ _ _ Et) as [->| ->]; auto. }
  destruct (out_file_of pdf_path out filename_template fmt i) as [f|e] eqn:Ef.
  2: { left. exists e. split; [reflexivity|]. right. right.
       unfold out_file_of in Ef. destruct (format_template _ _ _); congruence. }
  right. exists f. split; [reflexivity|].
  pose proof (out_file_nonempty _ _ _ _ _ _ Ef) as Hne.
  rewrite (lookup_path_cons _ _ Hne).
  destruct (fs w !! f) as [n|] eqn:Hf.
  - rewrite bool_decide_eq_true_2 by eauto. destruct overwrite; simpl.
    + rewrite (lookup_path_cons _ _ Hne), Hf. rewrite <- app_assoc. simpl.
      destruct n as [|c]; [right; left; reflexivity|right; right; eauto].
    + left. split; [reflexivity|]. split; [eauto|reflexivity].
  - rewrite bool_decide_eq_false_2 by (intros [? ?]; congruence). simpl.
    rewrite (lookup_path_cons _ _ Hne), Hf. rewrite <- app_assoc. simpl.
    right. right. eauto.
Qed.

Lemma files_stay_insert_blob (m : gmap path node) (f : path) (b : list Z) :
  files_stay m (<[f := File (Blob b)]> m).
Proof.
  intros p. destruct (decide (f = p)) as [<-|Hne].
  - rewrite lookup_insert_eq. split; eauto.
  - rewrite lookup_insert_ne by done. split; eauto.
Qed.

(** The loop over in-range indices: what it logs, what it leaves on
    disk, and how it can fail. *)
Lemma loop_summary doc pdf_path out zoom fmt quality overwrite filename_template
    grayscale max_dim (xs : list Z) :
  Forall (fun i => 0 <= i < doc_len doc) xs ->
  forall w,
    let body := export_page doc pdf_path out zoom fmt quality overwrite filename_template
                  grayscale max_dim in
    exists t,
      trace (for_each xs body w).2 = trace w ++ t
      /\ rendered t `prefix_of` xs
      /\ files_stay (fs w) (fs (for_each xs body w).2)
      /\ match (for_each xs body w).1 with
         | Ok _ =>
             rendered t = xs
             /\ forall i, i ∈ xs ->
                  exists f, out_file_of pdf_path out filename_template fmt i = Ok f
                            /\ is_Some (fs (for_each xs body w).2 !! f)
                            /\ (overwrite = true ->
                                exists b, fs (for_each xs body w).2 !! f = Some (File (Blob b)))
         | Raise e => ~ unreachable_exn e
         end.
Proof.
  intros Hxs. induction Hxs as [|i xs Hi Hxs IH]; intros w; cbv zeta.
  - exists []. simpl. rewrite app_nil_r. split; [reflexivity|]. split; [done|].
    split; [reflexivity|]. split; [reflexivity|]. intros i Hi. by apply elem_of_nil in Hi.
  - simpl. unfold mbind at 1 2 3 4 5, IO_bind at 1 2 3 4 5.
    destruct (export_page_cases doc pdf_path out zoom fmt quality overwrite
                filename_template grayscale max_dim i w Hi)
      as [(e & E & He)|(f & Ef & [(E & Hthere & Hov)|[E|(img & E)]])];
      cbv zeta in E; rewrite E.
    + exists [EvRender i]. simpl. split; [reflexivity|].
      split; [by apply prefix_cons, prefix_nil|]. split; [reflexivity|].
      destruct He as [->|[->| ->]]; simpl; tauto.
    + destruct (IH {| fs := fs w; trace := trace w ++ [EvRender i] |})
        as (t & Et & Hpre & Hstay & Hres).
      cbv zeta in *. simpl in *. exists (EvRender i :: t).
      split; [rewrite Et, <- app_assoc; reflexivity|].
      split; [simpl; by apply prefix_cons|]. split; [exact Hstay|].
      destruct (for_each xs _ _).1 as [[]|e]; [|exact Hres].
      destruct Hres as [Hr Hall]. split; [simpl; by rewrite Hr|].
      intros j Hj. apply elem_of_cons in Hj as [->|Hj]; [|by apply Hall].
      exists f. split; [exact Ef|]. split; [by apply Hstay|]. rewrite Hov. discriminate.
    + exists [EvRender i; EvSave f]. simpl. split; [reflexivity|].
      split; [by apply prefix_cons, prefix_nil|]. split; [reflexivity|]. tauto.
    + destruct (IH {| fs := <[f := File (Blob (encode (save_kwargs fmt quality) img))]> (fs w);
                      trace := trace w ++ [EvRender i; EvSave f] |})
        as (t & Et & Hpre & Hstay & Hres).
      cbv zeta in *. simpl in *. exists (EvRender i :: EvSave f :: t).
      split; [rewrite Et, <- app_assoc; reflexivity|].
      split; [simpl; by apply prefix_cons|].
      split; [etransitivity; [apply files_stay_insert_blob|exact Hstay]|].
      destruct (for_each xs _ _).1 as [[]|e]; [|exact Hres].
      destruct Hres as [Hr Hall]. split; [simpl; by rewrite Hr|].
      intros j Hj. apply elem_of_cons in Hj as [->|Hj]; [|by apply Hall].
      exists f. split; [exact Ef|].
      destruct (Hstay f) as [Hs Hb].
      split; [apply Hs; rewrite lookup_insert_eq; eauto|].
      intros _. eapply Hb. apply lookup_insert_eq.
Qed.

End Pages.

Section Conversions.
Context `{Codec}.

Lemma range_in_document start end_ n first last :
  _validate_range start end_ n = Ok (first, last) ->
  Forall (fun i => 0 <= i < n) (seqZ first (last + 1 - first)).
Proof.
  intros E. apply validate_range_bounds in E. apply Forall_forall. intros i Hi.
  apply elem_of_seqZ in Hi. lia.
Qed.

(** What happens while the document is open, in one statement. *)
Lemma convert_document_summary doc pdf_path out zoom fmt quality start end_ overwrite
    filename_template password grayscale max_dim w :
  let r := convert_document doc pdf_path out zoom fmt quality start end_ overwrite
             filename_template password grayscale max_dim w in
  exists t,
    trace r.2 = trace w ++ t
    /\ files_stay (fs w) (fs r.2)
    /\ match r.1 with
       | Ok _ =>
           exists first last,
             _validate_range start end_ (doc_len doc) = Ok (first, last)
             /\ rendered t = seqZ first (last + 1 - first)
             /\ forall i, first <= i <= last ->
                  exists f, out_file_of pdf_path out filename_template fmt i = Ok f
                            /\ is_Some (fs r.2 !! f)
                            /\ (overwrite = true ->
                                exists b, fs r.2 !! f = Some (File (Blob b)))
       | Raise e =>
           ~ unreachable_exn e
           /\ match _validate_range start end_ (doc_len doc) with
              | Ok (first, last) => rendered t `prefix_of` seqZ first (last + 1 - first)
              | Raise _ => rendered t = []
              end
       end.
Proof.
  cbv zeta.
  assert (Hrest : forall w1 : World,
    let r := (log (EvRange start end_ (doc_len doc)) ;;
              '(first, last) ← lift (_validate_range start end_ (doc_len doc));
              for_each (seqZ first (last + 1 - first))
                (export_page doc pdf_path out zoom fmt quality overwrite filename_template
                   grayscale max_dim)) w1 in
    exists t,
      trace r.2 = trace w1 ++ t
      /\ files_stay (fs w1) (fs r.2)
      /\ match r.1 with
         | Ok _ =>
             exists first last,
               _validate_range start end_ (doc_len doc) = Ok (first, last)
               /\ rendered t = seqZ first (last + 1 - first)
               /\ forall i, first <= i <= last ->
                    exists f, out_file_of pdf_path out filename_template fmt i = Ok f
                              /\ is_Some (fs r.2 !! f)
                              /\ (overwrite = true ->
                                  exists b, fs r.2 !! f = Some (File (Blob b)))
         | Raise e =>
             ~ unreachable_exn e
             /\ match _validate_range start end_ (doc_len doc) with
                | Ok (first, last) => rendered t `prefix_of` seqZ first (last + 1 - first)
                | Raise _ => rendered t = []
                end
         end).
  { intros w1. cbv zeta. unfold mbind, IO_bind, log, lift. simpl.
    destruct (_validate_range start end_ (doc_len doc)) as [[first last]|e] eqn:Ev.
    - destruct (loop_summary doc pdf_path out zoom fmt quality overwrite filename_template
                  grayscale max_dim _ (range_in_document _ _ _ _ _ Ev)
                  {| fs := fs w1; trace := trace w1 ++ [EvRange start end_ (doc_len doc)] |})
        as (t & Et & Hpre & Hstay & Hres).
      cbv zeta in *. simpl in *.
      exists (EvRange start end_ (doc_len doc) :: t).
      split; [rewrite Et, <- app_assoc; reflexivity|]. split; [exact Hstay|].
      destruct (for_each _ _ _).1 as [[]|e].
      + destruct Hres as [Hr Hall]. exists first, last. split; [reflexivity|].
        split; [exact Hr|]. intros i Hi. apply Hall. apply elem_of_seqZ. lia.
      + split; [exact Hres|exact Hpre].
    - simpl. exists [EvRange start end_ (doc_len doc)]. split; [reflexivity|].
      split; [reflexivity|]. split; [|reflexivity].
      unfold _validate_range in Ev. destruct (_ >? _); [|discriminate].
      injection Ev as <-. simpl. tauto. }
  assert (Hquiet : forall e t, ~ unreachable_exn e -> rendered t = [] ->
    ~ unreachable_exn e
    /\ match _validate_range start end_ (doc_len doc) with
       | Ok (first, last) => rendered t `prefix_of` seqZ first (last + 1 - first)
       | Raise _ => rendered t = []
       end).
  { intros e t He Ht. split; [exact He|].
    destruct (_validate_range _ _ _) as [[first last]|]; [|exact Ht].
    rewrite Ht. apply prefix_nil. }
  unfold convert_document.
  destruct (needs_pass doc).
  - destruct (negb (truthy_str password)) eqn:Hpw.
    + exists []. rewrite app_nil_r. split; [reflexivity|]. split; [reflexivity|].
      exact (Hquiet (PermissionError EncryptedNoPassword) [] (fun F => F) eq_refl).
    + destruct (negb (authenticate doc (default "" password))) eqn:Hauth.
      * exists [EvAuthenticate (default "" password)].
        unfold doc_authenticate, mbind, IO_bind, log, mret, IO_ret, raise. simpl.
        rewrite Hauth. split; [reflexivity|]. split; [reflexivity|].
        exact (Hquiet (PermissionError IncorrectPassword)
                 [EvAuthenticate (default "" password)] (fun F => F) eq_refl).
      * destruct (Hrest {| fs := fs w;
                           trace := trace w ++ [EvAuthenticate (default "" password)] |})
          as (t & Et & Hstay & Hres).
        exists (EvAuthenticate (default "" password) :: t).
        apply negb_false_iff in Hauth.
        unfold doc_authenticate, mbind, IO_bind, log, lift, mret, IO_ret in *.
        simpl in *. rewrite Hauth. simpl.
        split; [etransitivity; [exact Et|]; simpl; rewrite <- app_assoc; reflexivity|].
        split; [exact Hstay|exact Hres].
  - exact (Hrest w).
Qed.

End Conversions.

Lemma rendered_app (t t' : list event) : rendered (t ++ t') = rendered t ++ rendered t'.
Proof. apply omap_app. Qed.

Section Outcomes.
Context `{Codec}.

(** X16: for every accepted range, clamped or not, the loop is not
    empty and every index it visits lies between the resolved first and
    last index and is the index of a page of the document, so [doc[i]]
    returns that page. *)
Theorem loop_indices_are_pages (doc : Document) (start end_ : option Z) (first last : Z) :
  _validate_range start end_ (doc_len doc) = Ok (first, last) ->
  seqZ first (last + 1 - first) <> []
  /\ forall i, i ∈ seqZ first (last + 1 - first) ->
       first <= i <= last
       /\ exists page, pages doc !! Z.to_nat i = Some page
                       /\ forall w, doc_getitem doc i w = (Ok page, w).
Proof.
  intros E. apply validate_range_bounds in E. split.
  - intros Hnil. apply (f_equal length) in Hnil. rewrite length_seqZ in Hnil.
    simpl in Hnil. lia.
  - intros i Hi. apply elem_of_seqZ in Hi. split; [lia|].
    destruct (doc_getitem_in_range doc i ltac:(lia)) as [page Hpage].
    exists page. split; [exact Hpage|]. intros w. unfold doc_getitem.
    destruct (Z.leb_spec 0 i); [|lia]. rewrite Hpage. reflexivity.
Qed.

(** X17: in a run that gets to the open document, pages are rendered
    in ascending order starting at the first index of the resolved
    range, with no index skipped or repeated; a run that returns has
    rendered every page of the range exactly once, and a run whose range
    is refused has rendered none. *)
Theorem pages_rendered_once_in_order pdf_path out_dir dpi quality start end_ fmt overwrite
    filename_template password grayscale max_dim w doc out m :
  request_ok fmt dpi quality ->
  lookup_path (fs w) pdf_path = Some (File (PdfFile doc)) ->
  outdir_of pdf_path out_dir = Ok out ->
  mkdir_from [] out (fs w) = Ok m ->
  let r := pdf_to_images pdf_path out_dir dpi quality start end_ fmt overwrite
             filename_template password grayscale max_dim w in
  exists t,
    trace r.2 = trace w ++ t
    /\ match _validate_range start end_ (doc_len doc) with
       | Ok (first, last) =>
           rendered t `prefix_of` seqZ first (last + 1 - first)
           /\ (forall d, r.1 = Ok d -> rendered t = seqZ first (last + 1 - first))
       | Raise _ => rendered t = []
       end.
Proof.
  intros Hok Hfile Hout Hmk. cbv zeta.
  rewrite (run_reaches_document _ _ _ _ _ _ _ _ _ _ _ _ _ _ _ _ Hok Hfile Hout Hmk).
  cbv zeta. simpl.
  destruct (convert_document_summary doc pdf_path out (dpi # 72) (normalize_format fmt)
              quality start end_ overwrite filename_template password grayscale max_dim
              (opened w m out pdf_path)) as (t & Et & _ & Hres).
  cbv zeta in Hres.
  exists ([EvMkdir out; EvOpen pdf_path] ++ t ++ [EvClose]).
  split; [rewrite Et; simpl; rewrite <- !app_assoc; reflexivity|].
  assert (Hr : rendered ([EvMkdir out; EvOpen pdf_path] ++ t ++ [EvClose]) = rendered t).
  { rewrite !rendered_app. simpl. apply app_nil_r. }
  rewrite Hr.
  destruct (convert_document _ _ _ _ _ _ _ _ _ _ _ _ _ _).1 as [[]|e1].
  - destruct Hres as (first & last & -> & Hall & _). rewrite Hall. done.
  - destruct Hres as [_ Hres].
    destruct (_validate_range _ _ _) as [[first last]|]; [|exact Hres].
    split; [exact Hres|]. simpl. discriminate.
Qed.

(** X18: after a run that returns, every page of the resolved range
    has its output path on disk; with overwrite enabled that path holds
    an encoded image (written by this run, by this page or by a later
    page that resolved to the same path). *)
Theorem every_page_has_its_file pdf_path out_dir dpi quality start end_ fmt overwrite
    filename_template password grayscale max_dim w d w' :
  pdf_to_images pdf_path out_dir dpi quality start end_ fmt overwrite
    filename_template password grayscale max_dim w = (Ok d, w') ->
  exists doc first last,
    lookup_path (fs w) pdf_path = Some (File (PdfFile doc))
    /\ _validate_range start end_ (doc_len doc) = Ok (first, last)
    /\ forall i, first <= i <= last ->
         exists f, out_file_of pdf_path d filename_template (normalize_format fmt) i = Ok f
                   /\ is_Some (fs w' !! f)
                   /\ (overwrite = true -> exists b, fs w' !! f = Some (File (Blob b))).
Proof.
  intros E.
  destruct (run_stops_early_or_reaches_document pdf_path out_dir dpi quality start end_
              fmt overwrite filename_template password grayscale max_dim w)
    as [(e0 & w0 & E0 & _)|(doc & out & m & Hok & Hfile & Hout & Hmk)].
  { rewrite E in E0. discriminate. }
  rewrite (run_reaches_document _ _ _ _ _ _ _ _ _ _ _ _ _ _ _ _ Hok Hfile Hout Hmk) in E.
  cbv zeta in E.
  destruct (convert_document_summary doc pdf_path out (dpi # 72) (normalize_format fmt)
              quality start end_ overwrite filename_template password grayscale max_dim
              (opened w m out pdf_path)) as (t & _ & _ & Hres).
  cbv zeta in Hres.
  destruct (convert_document _ _ _ _ _ _ _ _ _ _ _ _ _ _) as [[[]|e1] w1];
    simpl in *; [|discriminate].
  injection E as <- <-. destruct Hres as (first & last & Ev & _ & Hall).
  exists doc, first, last. split; [exact Hfile|]. split; [exact Ev|]. exact Hall.
Qed.

End Outcomes.

Lemma loop_indices_are_pages_witness :
  exists page, doc_getitem Sample.plain 1 Sample.disk = (Ok page, Sample.disk).
Proof.
  destruct (loop_indices_are_pages Sample.plain (Some 2) (Some 9) 1 1 eq_refl)
    as [_ Hall].
  destruct (Hall 1) as (_ & page & _ & Hget).
  - apply elem_of_seqZ. lia.
  - exists page. apply Hget.
Defined.

Lemma pages_rendered_once_in_order_witness :
  exists t,
    trace (pdf_to_images (H := Sample.codec) ["in"; "doc.pdf"] None 150 90 None None "jpg"
             true "{stem}_p{page:03d}" None false None Sample.disk).2 = t
    /\ rendered t = [0; 1].
Proof.
  destruct (pages_rendered_once_in_order (H := Sample.codec) ["in"; "doc.pdf"] None 150 90
              None None "jpg" true "{stem}_p{page:03d}" None false None Sample.disk
              Sample.plain ["in"; "doc"] (<[ ["in"; "doc"] := Dir ]> (fs Sample.disk)))
    as (t & Et & Hall & Hok).
  - split; [|split]; [vm_compute; set_solver | lia | lia].
  - reflexivity.
  - reflexivity.
  - vm_compute. reflexivity.
  - exists t. split; [exact Et|]. eapply Hok. vm_compute. reflexivity.
Defined.

Lemma every_page_has_its_file_witness :
  exists doc first last,
    lookup_path (fs Sample.disk) ["in"; "doc.pdf"] = Some (File (PdfFile doc))
    /\ _validate_range (Some 2) None (doc_len doc) = Ok (first, last).
Proof.
  destruct (every_page_has_its_file (H := Sample.codec) ["in"; "doc.pdf"] None 150 90
              (Some 2) None "png" true "{stem}_p{page:03d}" None false None Sample.disk
              ["in"; "doc"]
              (pdf_to_images (H := Sample.codec) ["in"; "doc.pdf"] None 150 90
                 (Some 2) None "png" true "{stem}_p{page:03d}" None false None
                 Sample.disk).2)
    as (doc & first & last & Hd & Hv & _).
  - vm_compute. reflexivity.
  - exists doc, first, last. split; assumption.
Defined.

(** ** The output directory *)

Lemma mkdir_from_again rest : forall pre m m',
  mkdir_from pre rest m = Ok m' -> mkdir_from pre rest m' = Ok m'.
Proof.
  induction rest as [|c rest IH]; intros pre m m' E; simpl in *; [reflexivity|].
  destruct (m !! (pre ++ [c])) as [[|f]|] eqn:Hp.
  - rewrite (mkdir_from_keeps _ _ _ _ _ _ E Hp). eauto.
  - discriminate.
  - rewrite (mkdir_from_keeps _ _ _ _ (pre ++ [c]) Dir E) by apply lookup_insert_eq. eauto.
Qed.

Lemma mkdir_from_parents rest : forall pre m m',
  mkdir_from pre rest m = Ok m' ->
  forall k, (0 < k <= length rest)%nat -> m' !! (pre ++ take k rest) = Some Dir.
Proof.
  induction rest as [|c rest IH]; intros pre m m' E k Hk; simpl in *; [lia|].
  destruct k as [|k]; [lia|]. simpl.
  assert (Hhere : exists m1, mkdir_from (pre ++ [c]) rest m1 = Ok m'
                             /\ m1 !! (pre ++ [c]) = Some Dir).
  { destruct (m !! (pre ++ [c])) as [[|f]|] eqn:Hp; [eauto|discriminate|].
    eexists. split; [exact E|]. apply lookup_insert_eq. }
  destruct Hhere as (m1 & E1 & Hdir).
  destruct k as [|k].
  - rewrite take_0. apply (mkdir_from_keeps _ _ _ _ _ _ E1 Hdir).
  - replace (pre ++ c :: take (S k) rest) with ((pre ++ [c]) ++ take (S k) rest)
      by (by rewrite <- app_assoc).
    apply (IH _ _ _ E1). lia.
Qed.

Section OutputDirectory.
Context `{Codec}.

(** X19: [_ensure_outdir] is idempotent and creates what is missing:
    when it returns a path, that path and every directory above it exist
    as directories, no entry that existed was changed, and a second call
    returns the same path and leaves the file system as it is. *)
Theorem ensure_outdir_idempotent pdf_path out_dir w out w1 :
  _ensure_outdir pdf_path out_dir w = (Ok out, w1) ->
  (forall k, (0 < k <= length out)%nat -> fs w1 !! take k out = Some Dir)
  /\ lookup_path (fs w1) out = Some Dir
  /\ (forall p n, fs w !! p = Some n -> fs w1 !! p = Some n)
  /\ _ensure_outdir pdf_path out_dir w1
     = (Ok out, {| fs := fs w1; trace := trace w1 ++ [EvMkdir out] |}).
Proof.
  unfold _ensure_outdir, mbind, IO_bind, lift. intros E.
  destruct (outdir_of pdf_path out_dir) as [d|e] eqn:Hout; [|discriminate].
  pose proof (mkdir_parents_result d w) as Hmk.
  destruct (mkdir_from [] d (fs w)) as [m|e] eqn:Emk; rewrite Hmk in E; [|discriminate].
  injection E as <- <-. simpl. split; [|split; [|split]].
  - intros k Hk. apply (mkdir_from_parents _ _ _ _ Emk k Hk).
  - apply (mkdir_from_makes _ _ _ _ Emk). reflexivity.
  - intros p n. apply (mkdir_from_keeps _ _ _ _ _ _ Emk).
  - pose proof (mkdir_parents_result d {| fs := m; trace := trace w ++ [EvMkdir d] |}) as Hmk2.
    simpl in Hmk2. rewrite (mkdir_from_again _ _ _ _ Emk) in Hmk2. rewrite Hmk2. reflexivity.
Qed.

End OutputDirectory.

Lemma ensure_outdir_idempotent_witness :
  lookup_path
    (fs (_ensure_outdir ["in"; "doc.pdf"] (Some ["out"; "pages"; "png"]) Sample.disk).2)
    ["out"; "pages"]
  = Some Dir.
Proof.
  destruct (ensure_outdir_idempotent ["in"; "doc.pdf"] (Some ["out"; "pages"; "png"])
              Sample.disk ["out"; "pages"; "png"]
              (_ensure_outdir ["in"; "doc.pdf"] (Some ["out"; "pages"; "png"]) Sample.disk).2)
    as (Hparents & _).
  - vm_compute. reflexivity.
  - apply (Hparents 2%nat). simpl. lia.
Defined.

(** ** Names *)

Lemma rfind_dot_none_shift (s : string) (i j : nat) :
  rfind_dot i s = None -> rfind_dot j s = None.
Proof.
  revert i j. induction s as [|c s IH]; intros i j; simpl; [done|].
  destruct (rfind_dot (S i) s) eqn:E; [discriminate|].
  rewrite (IH _ (S j) E). destruct (Ascii.eqb c "."); [discriminate|done].
Qed.

Lemma rfind_dot_append (base ext : string) (i : nat) :
  rfind_dot 0 ext = None ->
  rfind_dot i (base +:+ "." +:+ ext) = Some (i + String.length base)%nat.
Proof.
  intros Hext. revert i. induction base as [|c base IH]; intros i; simpl.
  - change ("" +:+ ext) with ext.
    rewrite (rfind_dot_none_shift _ _ (S i) Hext). f_equal. lia.
  - rewrite IH. f_equal. lia.
Qed.

Lemma substring_prefix (base rest : string) :
  substring 0 (String.length base) (base +:+ rest) = base.
Proof.
  induction base as [|c base IH]; simpl.
  - destruct rest; reflexivity.
  - rewrite IH. reflexivity.
Qed.

Lemma string_length_append (a b : string) :
  String.length (a +:+ b) = (String.length a + String.length b)%nat.
Proof. induction a as [|c a IH]; simpl; [reflexivity|]. rewrite IH. reflexivity. Qed.

Lemma last_of_snoc (dir : path) (nm : string) : List.last (dir ++ [nm]) "" = nm.
Proof. induction dir as [|c dir IH]; [reflexivity|]. simpl. destruct (dir ++ [nm]) eqn:E; [by destruct dir|exact IH]. Qed.

(** X20: for a PDF named [base.ext] in directory [dir], with a
    non-empty base and a non-empty extension without a dot, the stem is
    [base] (only the last suffix is cut), so the default output
    directory is [dir/base] and page [i] goes to
    [dir/base/<formatted name>.<fmt>]. *)
Theorem default_outdir_is_stem (dir : path) (base ext : string) :
  base <> "" -> ext <> "" -> rfind_dot 0 ext = None ->
  stem (dir ++ [base +:+ "." +:+ ext]) = base
  /\ outdir_of (dir ++ [base +:+ "." +:+ ext]) None = Ok (dir ++ [base]).
Proof.
  intros Hbase Hext Hdot.
  assert (Hstem : stem (dir ++ [base +:+ "." +:+ ext]) = base).
  { assert (Hlen : String.length (base +:+ "." +:+ ext)
                   = (String.length base + S (String.length ext))%nat).
    { rewrite string_length_append. reflexivity. }
    assert (Hb : (0 < String.length base)%nat) by (destruct base; [done|simpl; lia]).
    assert (He : (0 < String.length ext)%nat) by (destruct ext; [done|simpl; lia]).
    unfold stem, name. rewrite last_of_snoc, rfind_dot_append, Hlen by exact Hdot.
    rewrite Nat.add_0_l.
    destruct (Nat.ltb_spec 0 (String.length base)); [|lia].
    destruct (Nat.ltb_spec (String.length base)
                (String.length base + S (String.length ext) - 1)); [|lia].
    apply substring_prefix. }
  split; [exact Hstem|].
  unfold outdir_of, with_suffix_empty. rewrite Hstem. unfold name. rewrite last_of_snoc.
  destruct (String.eqb_spec (base +:+ "." +:+ ext) "") as [E|_].
  { destruct base; [done|discriminate]. }
  rewrite removelast_last. reflexivity.
Qed.

Lemma default_outdir_is_stem_witness :
  outdir_of ["home"; "scan.2024.pdf"] None = Ok ["home"; "scan.2024"].
Proof.
  apply (default_outdir_is_stem ["home"] "scan.2024" "pdf"); [discriminate..|reflexivity].
Defined.

(** ** Formats *)

Lemma lower_char_idem (c : ascii) : lower_char (lower_char c) = lower_char c.
Proof. destruct c as [[] [] [] [] [] [] [] []]; reflexivity. Qed.

Lemma lower_idem (s : string) : lower (lower s) = lower s.
Proof. induction s as [|c s IH]; simpl; [reflexivity|]. by rewrite lower_char_idem, IH. Qed.

(** X21: normalizing a format is idempotent, and a format that passes
    the check is, once normalized, one of jpg, png and webp (never the
    alias): so every save of a run goes through one of the three
    explicit encoder branches, and the fallback branch of the writer is
    dead code. *)
Theorem validated_format_has_an_encoder (fmt : string) (quality : Z) :
  normalize_format (normalize_format fmt) = normalize_format fmt
  /\ (normalize_format fmt ∈ VALID_FORMATS ->
      (normalize_format fmt = "jpg" \/ normalize_format fmt = "png"
       \/ normalize_format fmt = "webp")
      /\ save_kwargs (normalize_format fmt) quality <> SaveByExtension).
Proof.
  assert (Hnot : normalize_format fmt <> "jpeg").
  { unfold normalize_format. destruct (String.eqb_spec (lower fmt) "jpeg"); [discriminate|done]. }
  split.
  - clear Hnot. unfold normalize_format.
    destruct (String.eqb_spec (lower fmt) "jpeg") as [E|E]; [reflexivity|].
    rewrite lower_idem. destruct (String.eqb_spec (lower fmt) "jpeg"); [contradiction|done].
  - intros Hin. unfold VALID_FORMATS in Hin.
    assert (Hcases : normalize_format fmt = "jpg" \/ normalize_format fmt = "png"
                     \/ normalize_format fmt = "webp").
    { repeat (apply elem_of_union in Hin as [Hin|Hin]);
        apply elem_of_singleton in Hin; auto. contradiction. }
    split; [exact Hcases|]. destruct Hcases as [->|[->| ->]]; discriminate.
Qed.

Lemma validated_format_has_an_encoder_witness :
  normalize_format "WebP" = "webp".
Proof.
  destruct (validated_format_has_an_encoder "WebP" 80) as [_ Hv].
  destruct Hv as [[E|[E|E]] _]; [vm_compute; set_solver|discriminate E..|exact E].
Defined.

Lemma mkdir_from_present rest : forall pre m,
  (forall k, (0 < k <= length rest)%nat -> m !! (pre ++ take k rest) = Some Dir) ->
  mkdir_from pre rest m = Ok m.
Proof.
  induction rest as [|c rest IH]; intros pre m Hall; simpl; [reflexivity|].
  pose proof (Hall 1%nat ltac:(simpl; lia)) as Hc. simpl in Hc. rewrite take_0 in Hc.
  rewrite Hc. apply IH. intros k Hk.
  replace ((pre ++ [c]) ++ take k rest) with (pre ++ take (S k) (c :: rest))
    by (simpl; by rewrite <- app_assoc).
  apply Hall. simpl. lia.
Qed.

Section Rerun.
Context `{Codec}.

Lemma export_page_by_plan doc pdf_path out zoom fmt quality overwrite filename_template
    grayscale max_dim i w :
  export_page doc pdf_path out zoom fmt quality overwrite filename_template
    grayscale max_dim i w
  = match page_plan doc pdf_path out zoom fmt filename_template grayscale max_dim i with
    | Ok (img, f) =>
        let w1 := {| fs := fs w; trace := trace w ++ [EvRender i] |} in
        if bool_decide (is_Some (lookup_path (fs w) f)) && negb overwrite
        then (Ok tt, w1)
        else save img f (save_kwargs fmt quality) w1
    | Raise e =>
        (Raise e, match e with
                  | IndexError _ => w
                  | _ => {| fs := fs w; trace := trace w ++ [EvRender i] |}
                  end)
    end.
Proof.
  unfold export_page, page_plan, doc_getitem, render, mbind, IO_bind, lift, log, mret,
    IO_ret, path_exists, raise.
  destruct (if 0 <=? i then _ else _) as [page|]; [|reflexivity]. simpl.
  destruct (transform _ _ _ _) as [img|e] eqn:Et; simpl.
  2: { destruct (transform_raises_kind _ _ _ _ _ Et) as [->| ->]; reflexivity. }
  unfold out_file_of. destruct (format_template _ _ _); simpl; [|reflexivity].
  destruct (_ && _); reflexivity.
Qed.

(** A loop that returned had a plan for every page, and left every
    target on disk. *)
Lemma loop_ok_plans doc pdf_path out zoom fmt quality overwrite filename_template
    grayscale max_dim (xs : list Z) : forall w w',
  for_each xs (export_page doc pdf_path out zoom fmt quality overwrite filename_template
                 grayscale max_dim) w = (Ok tt, w') ->
  files_stay (fs w) (fs w')
  /\ forall i, i ∈ xs ->
       exists img f,
         page_plan doc pdf_path out zoom fmt filename_template grayscale max_dim i
         = Ok (img, f)
         /\ is_Some (fs w' !! f).
Proof.
  induction xs as [|i xs IH]; intros w w'; simpl.
  - intros [= <-]. split; [reflexivity|]. intros i Hi. by apply elem_of_nil in Hi.
  - unfold mbind, IO_bind. rewrite export_page_by_plan.
    destruct (page_plan _ _ _ _ _ _ _ _ i) as [[img f]|e] eqn:Ep; [|discriminate].
    cbv zeta.
    assert (Hne : f <> []).
    { unfold page_plan in Ep. destruct (if 0 <=? i then _ else _); [|discriminate].
      simpl in Ep. destruct (transform _ _ _ _); [|discriminate]. simpl in Ep.
      destruct (out_file_of _ _ _ _ _) as [f'|] eqn:Ef; [|discriminate].
      injection Ep as _ <-. eapply out_file_nonempty, Ef. }
    rewrite (lookup_path_cons _ _ Hne).
    destruct (bool_decide (is_Some (fs w !! f)) && negb overwrite) eqn:Hskip.
    + intros E. destruct (IH _ _ E) as [Hstay Hall]. simpl in Hstay.
      split; [exact Hstay|]. intros j Hj.
      apply elem_of_cons in Hj as [->|Hj]; [|by apply Hall].
      exists img, f. split; [exact Ep|]. apply Hstay.
      apply andb_true_iff in Hskip as [Hs _]. by apply bool_decide_eq_true in Hs.
    + unfold save. simpl. rewrite (lookup_path_cons _ _ Hne).
      destruct (fs w !! f) as [[|c]|] eqn:Hf; try discriminate.
      * intros E. destruct (IH _ _ E) as [Hstay Hall]. simpl in Hstay.
        split; [etransitivity; [apply files_stay_insert_blob|exact Hstay]|].
        intros j Hj. apply elem_of_cons in Hj as [->|Hj]; [|by apply Hall].
        exists img, f. split; [exact Ep|]. apply Hstay. rewrite lookup_insert_eq. eauto.
      * intros E. destruct (IH _ _ E) as [Hstay Hall]. simpl in Hstay.
        split; [etransitivity; [apply files_stay_insert_blob|exact Hstay]|].
        intros j Hj. apply elem_of_cons in Hj as [->|Hj]; [|by apply Hall].
        exists img, f. split; [exact Ep|]. apply Hstay. rewrite lookup_insert_eq. eauto.
Qed.

(** With overwrite off, a loop whose targets all exist writes nothing. *)
Lemma loop_skips doc pdf_path out zoom fmt quality filename_template
    grayscale max_dim (xs : list Z) : forall w,
  (forall i, i ∈ xs ->
     exists img f,
       page_plan doc pdf_path out zoom fmt filename_template grayscale max_dim i
       = Ok (img, f)
       /\ is_Some (fs w !! f)) ->
  exists t,
    for_each xs (export_page doc pdf_path out zoom fmt quality false filename_template
                   grayscale max_dim) w
    = (Ok tt, {| fs := fs w; trace := trace w ++ t |}).
Proof.
  induction xs as [|i xs IH]; intros w Hall; simpl.
  - exists []. rewrite app_nil_r. by destruct w.
  - unfold mbind, IO_bind. rewrite export_page_by_plan.
    destruct (Hall i) as (img & f & Ep & Hf); [by left|]. rewrite Ep. cbv zeta.
    assert (Hthere : is_Some (lookup_path (fs w) f)).
    { destruct f; [by eexists|exact Hf]. }
    rewrite (bool_decide_eq_true_2 _ Hthere). simpl.
    destruct (IH {| fs := fs w; trace := trace w ++ [EvRender i] |}) as (t & Et).
    { intros j Hj. apply Hall. by right. }
    exists (EvRender i :: t). rewrite Et. simpl. rewrite <- app_assoc. reflexivity.
Qed.

(** A conversion that returned once is, on every world, the loop run
    after a fixed prelude on the log. *)
Lemma convert_document_ok_shape doc pdf_path out zoom fmt quality start end_ overwrite
    filename_template password grayscale max_dim w w' :
  convert_document doc pdf_path out zoom fmt quality start end_ overwrite
    filename_template password grayscale max_dim w = (Ok tt, w') ->
  exists pre first last,
    forall overwrite' w0,
      convert_document doc pdf_path out zoom fmt quality start end_ overwrite'
        filename_template password grayscale max_dim w0
      = for_each (seqZ first (last + 1 - first))
          (export_page doc pdf_path out zoom fmt quality overwrite' filename_template
             grayscale max_dim)
          {| fs := fs w0; trace := trace w0 ++ pre |}.
Proof.
  unfold convert_document, doc_authenticate, mbind, IO_bind, lift, log, raise, mret, IO_ret.
  destruct (needs_pass doc).
  - destruct (negb (truthy_str password)); [discriminate|]. simpl.
    destruct (negb (authenticate doc (default "" password))); [discriminate|]. simpl.
    destruct (_validate_range _ _ _) as [[first last]|]; [|discriminate]. intros _.
    exists [EvAuthenticate (default "" password); EvRange start end_ (doc_len doc)],
      first, last.
    intros overwrite' w0. rewrite <- app_assoc. reflexivity.
  - simpl. destruct (_validate_range _ _ _) as [[first last]|]; [|discriminate]. intros _.
    exists [EvRange start end_ (doc_len doc)], first, last. reflexivity.
Qed.

(** X22: running the same request again with overwrite disabled is a
    no-op on the file system: if the first run returned, the second
    returns the same directory and leaves every file as it is. *)
Theorem rerun_without_overwrite_writes_nothing pdf_path out_dir dpi quality start end_ fmt
    filename_template password grayscale max_dim w d w1 :
  pdf_to_images pdf_path out_dir dpi quality start end_ fmt false
    filename_template password grayscale max_dim w = (Ok d, w1) ->
  exists w2,
    pdf_to_images pdf_path out_dir dpi quality start end_ fmt false
      filename_template password grayscale max_dim w1 = (Ok d, w2)
    /\ fs w2 = fs w1.
Proof.
  intros E.
  pose proof (run_keeps_entries pdf_path out_dir dpi quality start end_ fmt
                filename_template password grayscale max_dim w) as Hkept.
  rewrite E in Hkept. simpl in Hkept.
  destruct (run_stops_early_or_reaches_document pdf_path out_dir dpi quality start end_
              fmt false filename_template password grayscale max_dim w)
    as [(e0 & w0 & E0 & _)|(doc & out & m & Hok & Hfile & Hout & Hmk)].
  { rewrite E in E0. discriminate. }
  rewrite (run_reaches_document _ _ _ _ _ _ _ _ _ _ _ _ _ _ _ _ Hok Hfile Hout Hmk) in E.
  cbv zeta in E.
  destruct (convert_document _ _ _ _ _ _ _ _ _ _ _ _ _ _) as [[[]|e1] wc] eqn:Ec;
    simpl in E; [|discriminate].
  injection E as <- <-.
  destruct (convert_document_ok_shape _ _ _ _ _ _ _ _ _ _ _ _ _ _ _ Ec)
    as (pre & first & last & Hshape).
  rewrite Hshape in Ec.
  destruct (loop_ok_plans _ _ _ _ _ _ _ _ _ _ _ _ _ Ec) as [Hstay Hplans].
  simpl in Hstay, Hkept.
  assert (Hfile1 : lookup_path (fs wc) pdf_path = Some (File (PdfFile doc))).
  { eapply lookup_path_keeps; [|exact Hfile]. exact Hkept. }
  assert (Hmk1 : mkdir_from [] out (fs wc) = Ok (fs wc)).
  { apply mkdir_from_present. intros k Hk. simpl.
    destruct (Hstay (take k out)) as [Hs _].
    pose proof (mkdir_from_parents _ _ _ _ Hmk k Hk) as Hdir. simpl in Hdir.
    pose proof (export_page_keeps_dirs doc pdf_path out (dpi # 72) (normalize_format fmt)
                  quality false filename_template grayscale max_dim) as Hpage.
    pose proof (keeps_for_each dirs_kept (seqZ first (last + 1 - first)) _ Hpage
                  {| fs := m; trace := trace (opened w m out pdf_path) ++ pre |}) as Hdirs.
    simpl in Hdirs. unfold opened in Ec. simpl in Ec. rewrite Ec in Hdirs. simpl in Hdirs.
    assert (Hnz : take k out <> []) by (destruct out, k; simpl in *; (lia || done)).
    specialize (Hdirs (take k out)). rewrite !(lookup_path_cons _ _ Hnz) in Hdirs.
    exact (Hdirs Hdir). }
  rewrite (run_reaches_document _ _ _ _ _ _ _ _ _ _ _ _ (closed wc) doc out (fs wc)
             Hok Hfile1 Hout Hmk1).
  cbv zeta. rewrite Hshape.
  destruct (loop_skips doc pdf_path out (dpi # 72) (normalize_format fmt) quality
              filename_template grayscale max_dim (seqZ first (last + 1 - first))
              {| fs := fs (opened (closed wc) (fs wc) out pdf_path);
                 trace := trace (opened (closed wc) (fs wc) out pdf_path) ++ pre |})
    as (t & Et).
  { simpl. exact Hplans. }
  rewrite Et. simpl. eexists. split; reflexivity.
Qed.

End Rerun.

Lemma rerun_without_overwrite_writes_nothing_witness :
  let w1 := (pdf_to_images (H := Sample.codec) ["in"; "doc.pdf"] None 150 90 None None "png"
               false "{stem}_p{page:03d}" None false None Sample.disk).2 in
  exists w2,
    pdf_to_images (H := Sample.codec) ["in"; "doc.pdf"] None 150 90 None None "png"
      false "{stem}_p{page:03d}" None false None w1 = (Ok ["in"; "doc"], w2)
    /\ fs w2 = fs w1.
Proof.
  intros w1.
  apply (rerun_without_overwrite_writes_nothing (H := Sample.codec) ["in"; "doc.pdf"] None
           150 90 None None "png" "{stem}_p{page:03d}" None false None Sample.disk).
  vm_compute. reflexivity.
Defined.
